(** * prvhash42: a shallow embedding of [prvhash42.h] (version 2.20)

    The hash function works on two 64-bit accumulators ([Seed], [lcg]), a
    cursor [hpos] into the caller's hash buffer, and a message that is
    consumed four bytes at a time.  Unsigned machine integers are modelled
    as [Z] with the wrap-around written out ([u8], [u32], [u64]).  Of the
    signed [int] quantities, [mlext] and [c] overflow for a message close
    to [INT_MAX] bytes, and are computed with the 32-bit two's complement
    wrap-around written out ([int]); [MsgLen], [HashLen], [hlm], [k] and
    [hpos] are integers, which they are in the code as long as [HashLen]
    is below [2 ^ 30].  Memory is a list of bytes;
    a read outside the list yields [0] and a write outside is dropped (the
    C code has no defined behaviour there; the function's contract asks for
    a hash buffer of [hlm] bytes and a message of [MsgLen] bytes). *)

From Stdlib Require Import ZArith List Lia Bool.
From coqutil Require Import Byte Z.bitblast.
Import ListNotations.

Local Open Scope Z_scope.

(** ** Machine integers *)

(** Conversion to [uint8_t], [uint32_t] and [uint64_t]. *)
Definition u8 (z : Z) : Z := z mod 2 ^ 8.
Definition u32 (z : Z) : Z := z mod 2 ^ 32.
Definition u64 (z : Z) : Z := z mod 2 ^ 64.

Definition INT_MAX : Z := 2147483647.

(** The [int] that a signed 32-bit operation yields when its result in the
    integers is [z]: the two's complement wrap-around of the usual
    compilers (the C standard leaves signed overflow undefined). *)
Definition int (z : Z) : Z := (z + 2 ^ 31) mod 2 ^ 32 - 2 ^ 31.

(** ** Byte buffers *)

(** [p[i]] for a [const uint8_t*]. *)
Definition byte_at (p : list byte) (i : Z) : Z :=
  byte.unsigned (nth (Z.to_nat i) p Byte.x00).

Fixpoint upd (p : list byte) (n : nat) (b : byte) : list byte :=
  match p, n with
  | [], _ => []
  | _ :: t, O => b :: t
  | h :: t, S n' => h :: upd t n' b
  end.

(** [p[i] = (uint8_t) v]. *)
Definition poke (p : list byte) (i : Z) (v : Z) : list byte :=
  if i <? 0 then p else upd p (Z.to_nat i) (byte.of_Z v).

(** [memset( p, v, n )]. *)
Fixpoint memset_nat (p : list byte) (v : byte) (n : nat) : list byte :=
  match n, p with
  | S n', _ :: t => v :: memset_nat t v n'
  | _, _ => p
  end.

Definition memset (p : list byte) (v : Z) (n : Z) : list byte :=
  memset_nat p (byte.of_Z v) (Z.to_nat n).

(** Four bytes, least significant first, as one 32-bit value. *)
Definition word_of_bytes (b0 b1 b2 b3 : Z) : Z :=
  Z.lor (Z.lor (Z.lor b0 (Z.shiftl b1 8)) (Z.shiftl b2 16)) (Z.shiftl b3 24).

Section Host.

(** The byte order of the processor the code runs on. *)
Variable big_endian : bool.

(** The 32-bit access at [p + i], a read in the host's byte order. *)
Definition load32 (p : list byte) (i : Z) : Z :=
  if big_endian
  then word_of_bytes (byte_at p (i + 3)) (byte_at p (i + 2))
                     (byte_at p (i + 1)) (byte_at p i)
  else word_of_bytes (byte_at p i) (byte_at p (i + 1))
                     (byte_at p (i + 2)) (byte_at p (i + 3)).

(** The 32-bit store of [w] at [p + i], a write in the host's byte order. *)
Definition store32 (p : list byte) (i : Z) (w : Z) : list byte :=
  if big_endian
  then poke (poke (poke (poke p i (Z.shiftr w 24)) (i + 1) (Z.shiftr w 16))
                  (i + 2) (Z.shiftr w 8)) (i + 3) w
  else poke (poke (poke (poke p i w) (i + 1) (Z.shiftr w 8))
                  (i + 2) (Z.shiftr w 16)) (i + 3) (Z.shiftr w 24).

(** ** The endianness helpers of [prvhash42ec.h] *)

(** Modelled from the spec: [prvhash42_u32ec] is declared in
    [prvhash42ec.h], which is not part of the sources at hand.  The spec
    (4.1, [read_u32]) has it read 4 bytes at an arbitrary address and
    return them as one integer in the canonical, little-endian order,
    whatever the host. *)
Definition prvhash42_u32ec (p : list byte) (i : Z) : Z :=
  word_of_bytes (byte_at p i) (byte_at p (i + 1))
                (byte_at p (i + 2)) (byte_at p (i + 3)).

(** Modelled from the spec: [prvhash42_u64ec] of [prvhash42ec.h]
    (4.1, [read_u64]): 8 bytes read as one little-endian integer. *)
Definition prvhash42_u64ec (p : list byte) (i : Z) : Z :=
  Z.lor (prvhash42_u32ec p i) (Z.shiftl (prvhash42_u32ec p (i + 4)) 32).

(** Reverses the four bytes at [i .. i+3]. *)
Definition swap4 (p : list byte) (i : Z) : list byte :=
  poke (poke (poke (poke p i (byte_at p (i + 3))) (i + 1) (byte_at p (i + 2)))
             (i + 2) (byte_at p (i + 1))) (i + 3) (byte_at p i).

Fixpoint swap_words (p : list byte) (i : Z) (n : nat) : list byte :=
  match n with
  | O => p
  | S n' => swap_words (swap4 p i) (i + 4) n'
  end.

(** Modelled from the spec: [prvhash42_ec] of [prvhash42ec.h]
    (4.1, [correct]): in place, every 4-byte word of the first [len]
    bytes goes from host order to canonical order; nothing happens on a
    little-endian host, each word is byte-swapped on a big-endian one. *)
Definition prvhash42_ec (p : list byte) (len : Z) : list byte :=
  if big_endian then swap_words p 0 (Z.to_nat (len / 4)) else p.

(** ** The hash function *)

(** [hlm = ( HashLen == 4 ? HashLen : HashLen << 1 )] *)
Definition hlm (HashLen : Z) : Z :=
  if HashLen =? 4 then HashLen else Z.shiftl HashLen 1.

(** [lb = (uint8_t) ( MsgLen > 0 ? ~Msg[ MsgLen - 1 ] : 0xFF )] *)
Definition lb (Msg : list byte) (MsgLen : Z) : Z :=
  u8 (if 0 <? MsgLen then Z.lnot (byte_at Msg (MsgLen - 1)) else 255).

(** The expression [MsgLen + (( 4 - ( MsgLen & 3 )) & 3 )] of line 101,
    taken in the integers. *)
Definition mlext_exact (MsgLen : Z) : Z :=
  MsgLen + Z.land (4 - Z.land MsgLen 3) 3.

(** [mlext = MsgLen + (( 4 - ( MsgLen & 3 )) & 3 )], an [int]. *)
Definition mlext (MsgLen : Z) : Z := int (mlext_exact MsgLen).

(** [c = mlext + HashLen + ( hlm - mlext % hlm )], an [int]: the two sums
    and the difference are [int] operations. *)
Definition c (MsgLen HashLen : Z) : Z :=
  int (int (mlext MsgLen + HashLen) +
       int (hlm HashLen - Z.rem (mlext MsgLen) (hlm HashLen))).

(** The expression of line 102, taken in the integers. *)
Definition c_exact (MsgLen HashLen : Z) : Z :=
  mlext_exact MsgLen + HashLen +
  (hlm HashLen - Z.rem (mlext_exact MsgLen) (hlm HashLen)).

(** Lines 101 and 102 do not overflow: the value of [c] in the integers
    fits in an [int] (for [MsgLen >= 0] and a valid [HashLen] it is the
    largest value that these lines compute). *)
Definition no_int_overflow (MsgLen HashLen : Z) : Prop :=
  c_exact MsgLen HashLen <= INT_MAX.

(** The variables that live across iterations of the main loop. *)
Record loop_state : Type := mkState
  { k : Z; Seed : Z; lcg : Z; hpos : Z; Hash : list byte }.

Section Call.

Variables (Msg : list byte) (MsgLen HashLen : Z).

(** The message word of the iteration at index [i] (lines 110-120). *)
Definition msgw (i : Z) : Z :=
  if i <? MsgLen - 3
  then prvhash42_u32ec Msg i
  else
    let lb := lb Msg MsgLen in
    Z.lor (Z.lor (Z.lor
      (u32 (if i <? MsgLen then byte_at Msg i else lb))
      (u32 (Z.shiftl (u32 (if i <? MsgLen - 1
                           then byte_at Msg (i + 1) else lb)) 8)))
      (u32 (Z.shiftl (u32 (if i <? MsgLen - 2
                           then byte_at Msg (i + 2) else lb)) 16)))
      (u32 (Z.shiftl (u32 lb) 24)).

(** One pass through the body of the main loop (lines 108-136),
    followed by the [k += 4] of the loop header. *)
Definition body (st : loop_state) : loop_state :=
  let msgw := msgw (k st) in
  let Seed1 := u64 (Seed st * lcg st) in
  let Seed2 := u64 (Z.lnot Seed1) in
  let hc := load32 (Hash st) (hpos st) in
  let hl := Z.lxor (Z.shiftr (lcg st) 32) msgw in
  let lcg' := u64 (lcg st + Seed2) in
  let ph := Z.lxor hc (Z.shiftr Seed2 32) in
  let Seed3 := Z.lxor Seed2 (Z.lxor ph hl) in
  let Hash' := store32 (Hash st) (hpos st) (u32 ph) in
  let hpos1 := hpos st + 4 in
  {| k := k st + 4;
     Seed := Seed3;
     lcg := lcg';
     hpos := if hpos1 =? hlm HashLen then 0 else hpos1;
     Hash := Hash' |}.

(** [for( k = 0; k < c; k += 4 ) { ... }] *)
Fixpoint loop (fuel : nat) (st : loop_state) : option loop_state :=
  match fuel with
  | O => None
  | S fuel' =>
      if k st <? c MsgLen HashLen then loop fuel' (body st) else Some st
  end.

(** The 32-bit word at [Hash + i] is XORed with the one at
    [Hash + HashLen + i] (line 143). *)
Definition fold_step (h : list byte) (i : Z) : list byte :=
  store32 h i (Z.lxor (load32 h i) (load32 h (HashLen + i))).

(** [for( k = 0; k < HashLen; k += 4 ) { ... }] (lines 141-144) *)
Fixpoint fold (fuel : nat) (i : Z) (h : list byte) : option (list byte) :=
  match fuel with
  | O => None
  | S fuel' =>
      if i <? HashLen then fold fuel' (i + 4) (fold_step h i) else Some h
  end.

(** Lines 139-147: the fold of the scratch half, when there is one,
    then the endianness correction of the output. *)
Definition finalize (fuel : nat) (h : list byte) : option (list byte) :=
  match (if 4 <? hlm HashLen then fold fuel 0 h else Some h) with
  | None => None
  | Some h' => Some (prvhash42_ec h' HashLen)
  end.

(** Lines 81-103: the state on entry to the main loop.  [InitVec] is
    [None] for a null pointer. *)
Definition init (Hash0 : list byte) (SeedXOR : Z)
    (InitVec : option (list byte)) : loop_state :=
  match InitVec with
  | None =>
      {| k := 0;
         Seed := Z.lxor 17412655673657598932 SeedXOR;
         lcg := 15252113002925621231;
         hpos := 0;
         Hash := memset Hash0 0 (hlm HashLen) |}
  | Some iv =>
      {| k := 0;
         Seed := prvhash42_u64ec iv 8;
         lcg := prvhash42_u64ec iv 0;
         hpos := 0;
         Hash := prvhash42_ec Hash0 (hlm HashLen) |}
  end.

(** The whole function; the result is the hash buffer on return.  The
    fuel bounds the passes of the main loop; the fold, of [HashLen / 4]
    passes, gets that many on top. *)
Definition prvhash42 (fuel : nat) (Hash0 : list byte) (SeedXOR : Z)
    (InitVec : option (list byte)) : option (list byte) :=
  match loop fuel (init Hash0 SeedXOR InitVec) with
  | None => None
  | Some st => finalize (fuel + Z.to_nat (HashLen / 4)) (Hash st)
  end.

(** The state before the iteration number [n] (counted from 0) of a
    run of the main loop, and after the iteration number [n - 1]. *)
Definition state_at (Hash0 : list byte) (SeedXOR : Z)
    (InitVec : option (list byte)) (n : nat) : loop_state :=
  Nat.iter n body (init Hash0 SeedXOR InitVec).

End Call.

End Host.

(** The precondition on [HashLen]: at least 4, in increments of 4. *)
Definition valid_HashLen (HashLen : Z) : Prop :=
  4 <= HashLen /\ HashLen mod 4 = 0.

(** The word [ph] that a pass from state [st] stores (line 127). *)
Definition ph_of (big_endian : bool) (st : loop_state) : Z :=
  Z.lxor (load32 big_endian (Hash st) (hpos st))
         (Z.shiftr (u64 (Z.lnot (u64 (Seed st * lcg st)))) 32).

(** The pass number [n] of the run is made (the guard [k < c] holds) and
    writes the 4-byte slot at offset [s] of the hash buffer: the buffer
    after the pass is the buffer before it with the word [ph] of the pass
    stored at [s], and that word is what is read there afterwards. *)
Definition pass_writes_slot (big_endian : bool) (Msg : list byte)
    (MsgLen HashLen : Z) (Hash0 : list byte) (SeedXOR : Z)
    (InitVec : option (list byte)) (n : nat) (s : Z) : Prop :=
  let st := state_at big_endian Msg MsgLen HashLen Hash0 SeedXOR InitVec n in
  let st' :=
    state_at big_endian Msg MsgLen HashLen Hash0 SeedXOR InitVec (S n) in
  k st < c MsgLen HashLen /\ hpos st = s /\
  Hash st' = store32 big_endian (Hash st) s (u32 (ph_of big_endian st)) /\
  load32 big_endian (Hash st') s = ph_of big_endian st.

(** The 4-byte slot at offset [s] of the hash buffer is written by some
    pass of the run whose index [k] is at or past [mlext], the end of the
    message rounded up to a whole word. *)
Definition written_after_message (big_endian : bool) (Msg : list byte)
    (MsgLen HashLen : Z) (Hash0 : list byte) (SeedXOR : Z)
    (InitVec : option (list byte)) (s : Z) : Prop :=
  exists n : nat,
    mlext MsgLen <=
      k (state_at big_endian Msg MsgLen HashLen Hash0 SeedXOR InitVec n) /\
    pass_writes_slot big_endian Msg MsgLen HashLen Hash0 SeedXOR InitVec n s.

(** The digest: the first [HashLen] bytes of the hash buffer. *)
Definition digest (HashLen : Z) (h : list byte) : list byte :=
  firstn (Z.to_nat HashLen) h.

(** [n] passes through the finalization loop, from index [i] on. *)
Fixpoint fold_n (big_endian : bool) (HashLen : Z) (n : nat) (i : Z)
    (h : list byte) : list byte :=
  match n with
  | O => h
  | S n' => fold_n big_endian HashLen n' (i + 4) (fold_step big_endian HashLen h i)
  end.

(** Every 4-byte slot of the [hlm] bytes of the hash buffer is stored to by
    an iteration at or past the end of the message. *)
Definition every_slot_written_after_message (big_endian : bool)
    (Msg : list byte) (MsgLen HashLen : Z) (Hash0 : list byte) (SeedXOR : Z)
    (InitVec : option (list byte)) : Prop :=
  forall s : Z, 0 <= s < hlm HashLen -> s mod 4 = 0 ->
    written_after_message big_endian Msg MsgLen HashLen Hash0 SeedXOR InitVec s.

(** ** Sample data *)

Definition bytes_of (l : list Z) : list byte := map byte.of_Z l.

Definition zero_buffer (n : nat) : list byte := repeat Byte.x00 n.

(** A 12-byte message. *)
Definition msg12 : list byte := bytes_of [1; 2; 3; 4; 5; 6; 7; 8; 9; 10; 11; 12].

(** The 3-byte message ["abc"]. *)
Definition msg_abc : list byte := bytes_of [97; 98; 99].

(** The digest of the empty message with the default seed, from a zeroed
    buffer of [hlm] bytes and with fuel for [c / 4] passes. *)
Definition empty_digest (big_endian : bool) (HashLen : Z) : option (list byte) :=
  option_map (digest HashLen)
    (prvhash42 big_endian [] 0 HashLen (S (Z.to_nat (c 0 HashLen / 4)))
       (zero_buffer (Z.to_nat (hlm HashLen))) 0 None).

(** ** Relating two runs *)

(** The buffer [h1], read on a host of byte order [be1], and the buffer
    [h2], read on a host of byte order [be2], hold the same 32-bit words
    at the offsets [lo <= j], [j + 4 <= hi] that are multiples of 4. *)
Definition same_words (be1 be2 : bool) (lo hi : Z) (h1 h2 : list byte) : Prop :=
  forall j : Z, lo <= j -> j mod 4 = 0 -> j + 4 <= hi ->
    load32 be1 h1 j = load32 be2 h2 j.

(** Two loop states agree on the scalar variables and on the words of the
    first [n] bytes of their buffers. *)
Definition same_state (be1 be2 : bool) (n : Z) (s1 s2 : loop_state) : Prop :=
  k s1 = k s2 /\ Seed s1 = Seed s2 /\ lcg s1 = lcg s2 /\ hpos s1 = hpos s2 /\
  same_words be1 be2 0 n (Hash s1) (Hash s2).

(** Lines 139-147 applied to the buffer [h] left by the main loop. *)
Definition finalized (big_endian : bool) (HashLen : Z) (h : list byte) : list byte :=
  prvhash42_ec big_endian
    (if 4 <? HashLen
     then fold_n big_endian HashLen (Z.to_nat (HashLen / 4)) 0 h
     else h) HashLen.

(** The byte at index [i] of the padded message: the message byte below
    [MsgLen], the filler byte from there on. *)
Definition padded_byte (Msg : list byte) (MsgLen i : Z) : Z :=
  if i <? MsgLen then byte_at Msg i else lb Msg MsgLen.

(** * Properties *)

(** ** Bytes and words *)

Lemma byte_at_range (p : list byte) (i : Z) : 0 <= byte_at p i < 2 ^ 8.
Proof. apply byte.unsigned_range. Qed.

Lemma length_upd (p : list byte) (n : nat) (b : byte) :
  length (upd p n b) = length p.
Proof.
  revert n; induction p as [|h t IH]; intros [|n]; simpl; auto.
Qed.

Lemma nth_upd_same (p : list byte) (n : nat) (b d : byte) :
  (n < length p)%nat -> nth n (upd p n b) d = b.
Proof.
  revert n; induction p as [|h t IH]; intros [|n] Hn; simpl in *;
    try lia; auto.
  apply IH; lia.
Qed.

Lemma nth_upd_other (p : list byte) (n m : nat) (b d : byte) :
  n <> m -> nth m (upd p n b) d = nth m p d.
Proof.
  revert n m; induction p as [|h t IH]; intros [|n] [|m] Hnm; simpl;
    try congruence; auto.
Qed.

Lemma length_poke (p : list byte) (i v : Z) : length (poke p i v) = length p.
Proof.
  unfold poke; destruct (i <? 0); [reflexivity | apply length_upd].
Qed.

Lemma byte_at_poke_same (p : list byte) (i v : Z) :
  0 <= i < Z.of_nat (length p) -> byte_at (poke p i v) i = u8 v.
Proof.
  intros Hi; unfold byte_at, poke.
  destruct (Z.ltb_spec i 0); [lia|].
  rewrite nth_upd_same by lia.
  apply byte.unsigned_of_Z.
Qed.

Lemma byte_at_poke_other (p : list byte) (i j v : Z) :
  0 <= j -> i <> j -> byte_at (poke p i v) j = byte_at p j.
Proof.
  intros Hj Hij; unfold byte_at, poke.
  destruct (Z.ltb_spec i 0); [reflexivity|].
  rewrite nth_upd_other by lia; reflexivity.
Qed.

Lemma lor_shiftl_add (a b n : Z) :
  0 <= n -> 0 <= a < 2 ^ n -> Z.lor a (Z.shiftl b n) = a + 2 ^ n * b.
Proof.
  intros Hn Ha.
  rewrite Z.or_to_plus.
  - rewrite Z.shiftl_mul_pow2 by lia; lia.
  - apply Z.bits_inj'; intros i Hi.
    rewrite Z.land_spec, Z.bits_0.
    destruct (Z.ltb_spec i n).
    + rewrite Z.shiftl_spec_low by lia; apply andb_false_r.
    + destruct (Z.eq_dec a 0) as [->|Hne]; [now rewrite Z.bits_0|].
      rewrite (Z.bits_above_log2 a i); [reflexivity | lia |].
      apply Z.log2_lt_pow2; [lia|].
      apply Z.lt_le_trans with (2 ^ n); [lia|].
      apply Z.pow_le_mono_r; lia.
Qed.

Lemma word_of_bytes_sum (b0 b1 b2 b3 : Z) :
  0 <= b0 < 2 ^ 8 -> 0 <= b1 < 2 ^ 8 -> 0 <= b2 < 2 ^ 8 ->
  word_of_bytes b0 b1 b2 b3 = b0 + 2 ^ 8 * b1 + 2 ^ 16 * b2 + 2 ^ 24 * b3.
Proof.
  intros H0 H1 H2; unfold word_of_bytes.
  rewrite (lor_shiftl_add b0 b1 8) by lia.
  rewrite (lor_shiftl_add _ b2 16) by lia.
  rewrite (lor_shiftl_add _ b3 24) by lia.
  reflexivity.
Qed.

Lemma word_of_bytes_range (b0 b1 b2 b3 : Z) :
  0 <= b0 < 2 ^ 8 -> 0 <= b1 < 2 ^ 8 -> 0 <= b2 < 2 ^ 8 ->
  0 <= b3 < 2 ^ 8 -> 0 <= word_of_bytes b0 b1 b2 b3 < 2 ^ 32.
Proof.
  intros H0 H1 H2 H3; rewrite word_of_bytes_sum by assumption; lia.
Qed.

Lemma word_of_bytes_split (w : Z) :
  word_of_bytes (u8 w) (u8 (Z.shiftr w 8)) (u8 (Z.shiftr w 16))
                (u8 (Z.shiftr w 24)) = u32 w.
Proof.
  unfold word_of_bytes, u8, u32.
  Z.bitblast.
Qed.

Ltac poke_simpl :=
  repeat first
    [ rewrite byte_at_poke_other by lia
    | rewrite byte_at_poke_same by (rewrite ?length_poke; lia) ].

Section HostFacts.

Variable be : bool.

Lemma length_store32 (p : list byte) (i w : Z) :
  length (store32 be p i w) = length p.
Proof.
  unfold store32; destruct be; now rewrite !length_poke.
Qed.

Lemma byte_at_store32_other (p : list byte) (i j w : Z) :
  0 <= j -> j < i \/ i + 4 <= j ->
  byte_at (store32 be p i w) j = byte_at p j.
Proof.
  intros Hj Hij; unfold store32; destruct be; now poke_simpl.
Qed.

Lemma load32_store32 (p : list byte) (i w : Z) :
  0 <= i -> i + 4 <= Z.of_nat (length p) ->
  load32 be (store32 be p i w) i = u32 w.
Proof.
  intros Hi Hlen; unfold load32, store32; destruct be; poke_simpl;
    apply word_of_bytes_split.
Qed.

Lemma load32_range (p : list byte) (i : Z) : 0 <= load32 be p i < 2 ^ 32.
Proof.
  unfold load32; destruct be; apply word_of_bytes_range;
    apply byte_at_range.
Qed.

Lemma load32_ext (p q : list byte) (i : Z) :
  (forall j, i <= j < i + 4 -> byte_at p j = byte_at q j) ->
  load32 be p i = load32 be q i.
Proof.
  intros H; unfold load32.
  rewrite (H i), (H (i + 1)), (H (i + 2)), (H (i + 3)) by lia.
  reflexivity.
Qed.

Lemma load32_store32_other (p : list byte) (i j w : Z) :
  0 <= j -> j + 4 <= i \/ i + 4 <= j ->
  load32 be (store32 be p i w) j = load32 be p j.
Proof.
  intros Hj Hij; apply load32_ext; intros j' Hj'.
  apply byte_at_store32_other; lia.
Qed.

Lemma length_swap4 (p : list byte) (i : Z) : length (swap4 p i) = length p.
Proof. unfold swap4; now rewrite !length_poke. Qed.

Lemma byte_at_swap4_other (p : list byte) (i j : Z) :
  0 <= j -> j < i \/ i + 4 <= j -> byte_at (swap4 p i) j = byte_at p j.
Proof. intros Hj Hij; unfold swap4; now poke_simpl. Qed.

Lemma byte_at_swap4 (p : list byte) (i o : Z) :
  0 <= i -> i + 4 <= Z.of_nat (length p) -> 0 <= o < 4 ->
  byte_at (swap4 p i) (i + o) = byte_at p (i + 3 - o).
Proof.
  intros Hi Hlen Ho; unfold swap4.
  assert (o = 0 \/ o = 1 \/ o = 2 \/ o = 3) as [-> | [-> | [-> | ->]]] by lia;
    rewrite ?Z.add_0_r; poke_simpl; unfold u8;
    rewrite Z.mod_small by apply byte_at_range; f_equal; lia.
Qed.

Lemma length_swap_words (n : nat) (p : list byte) (i : Z) :
  length (swap_words p i n) = length p.
Proof.
  revert p i; induction n as [|n IH]; intros p i; simpl; [reflexivity|].
  now rewrite IH, length_swap4.
Qed.

Lemma byte_at_swap_words_other (n : nat) (p : list byte) (i j : Z) :
  0 <= j -> j < i \/ i + 4 * Z.of_nat n <= j ->
  byte_at (swap_words p i n) j = byte_at p j.
Proof.
  revert p i; induction n as [|n IH]; intros p i Hj Hij; simpl;
    [reflexivity|].
  rewrite IH by lia.
  apply byte_at_swap4_other; lia.
Qed.

Lemma byte_at_swap_words (n : nat) (p : list byte) (i m o : Z) :
  0 <= i -> i + 4 * Z.of_nat n <= Z.of_nat (length p) ->
  0 <= m < Z.of_nat n -> 0 <= o < 4 ->
  byte_at (swap_words p i n) (i + 4 * m + o) = byte_at p (i + 4 * m + 3 - o).
Proof.
  revert p i m; induction n as [|n IH]; intros p i m Hi Hlen Hm Ho;
    [lia|].
  cbn [swap_words].
  destruct (Z.eq_dec m 0) as [->|Hm0].
  - rewrite byte_at_swap_words_other by lia.
    replace (i + 4 * 0 + o) with (i + o) by lia.
    replace (i + 4 * 0 + 3 - o) with (i + 3 - o) by lia.
    apply byte_at_swap4; lia.
  - replace (i + 4 * m + o) with (i + 4 + 4 * (m - 1) + o) by lia.
    rewrite IH by (rewrite ?length_swap4; lia).
    rewrite byte_at_swap4_other by lia.
    f_equal; lia.
Qed.

(** What the endianness correction does, as far as the hash function
    relies on it: the length is kept, bytes from [len] on are left
    alone, and a word of the corrected part read in canonical order is
    the word that was there in host order. *)
Lemma length_prvhash42_ec (p : list byte) (len : Z) :
  length (prvhash42_ec be p len) = length p.
Proof.
  unfold prvhash42_ec; destruct be; [apply length_swap_words | reflexivity].
Qed.

Lemma byte_at_prvhash42_ec_other (p : list byte) (len i : Z) :
  0 <= len <= i -> byte_at (prvhash42_ec be p len) i = byte_at p i.
Proof.
  intros Hi; unfold prvhash42_ec; destruct be; [|reflexivity].
  apply byte_at_swap_words_other; [lia|].
  right. rewrite Z2Nat.id by (apply Z.div_pos; lia).
  pose proof (Z.mul_div_le len 4); lia.
Qed.

Lemma u32ec_prvhash42_ec (p : list byte) (len j : Z) :
  len <= Z.of_nat (length p) -> 0 <= j -> j mod 4 = 0 -> j + 4 <= len ->
  prvhash42_u32ec (prvhash42_ec be p len) j = load32 be p j.
Proof.
  intros Hlen Hj Hal Hj4; unfold prvhash42_ec, prvhash42_u32ec, load32.
  destruct be; [|reflexivity].
  assert (Hq : 0 <= j / 4 < len / 4).
  { split; [apply Z.div_pos; lia|].
    apply Z.div_lt_upper_bound; [lia|].
    pose proof (Z.mul_div_le len 4).
    pose proof (Z.div_mod len 4). pose proof (Z.mod_pos_bound len 4).
    pose proof (Z.div_mod j 4). lia. }
  assert (Hj' : j = 0 + 4 * (j / 4)) by (pose proof (Z.div_mod j 4); lia).
  assert (Hn : 0 + 4 * Z.of_nat (Z.to_nat (len / 4)) <= Z.of_nat (length p)).
  { rewrite Z2Nat.id by lia. pose proof (Z.mul_div_le len 4); lia. }
  pose proof (fun o Ho =>
    byte_at_swap_words (Z.to_nat (len / 4)) p 0 (j / 4) o
      (Z.le_refl 0) Hn ltac:(rewrite Z2Nat.id; lia) Ho) as Hsw.
  rewrite <- Hj' in Hsw.
  pose proof (Hsw 0 ltac:(lia)) as H0. pose proof (Hsw 1 ltac:(lia)) as H1.
  pose proof (Hsw 2 ltac:(lia)) as H2. pose proof (Hsw 3 ltac:(lia)) as H3.
  rewrite Z.add_0_r in H0.
  replace (j + 3 - 0) with (j + 3) in H0 by lia.
  replace (j + 3 - 1) with (j + 2) in H1 by lia.
  replace (j + 3 - 2) with (j + 1) in H2 by lia.
  replace (j + 3 - 3) with j in H3 by lia.
  now rewrite H0, H1, H2, H3.
Qed.

End HostFacts.

(** ** The lengths [hlm], [mlext] and [c] *)

Lemma hlm_eq (HashLen : Z) :
  hlm HashLen = if HashLen =? 4 then 4 else 2 * HashLen.
Proof.
  unfold hlm; destruct (Z.eqb_spec HashLen 4) as [->|_]; [reflexivity|].
  rewrite Z.shiftl_mul_pow2 by lia; lia.
Qed.

Lemma hlm_facts (HashLen : Z) :
  valid_HashLen HashLen ->
  4 <= hlm HashLen /\ hlm HashLen mod 4 = 0 /\
  HashLen <= hlm HashLen <= 2 * HashLen.
Proof.
  intros [H4 Hm]; rewrite hlm_eq.
  destruct (Z.eqb_spec HashLen 4) as [->|Hne].
  - repeat split; lia.
  - repeat split; try lia.
    rewrite Z.mul_comm, Z.mul_mod, Hm by lia; reflexivity.
Qed.

Lemma land_3 (a : Z) : Z.land a 3 = a mod 4.
Proof. change 3 with (Z.ones 2); now rewrite Z.land_ones by lia. Qed.

Lemma mlext_exact_eq (MsgLen : Z) :
  mlext_exact MsgLen = MsgLen + (4 - MsgLen mod 4) mod 4.
Proof. unfold mlext_exact; now rewrite !land_3. Qed.

Lemma mlext_exact_facts (MsgLen : Z) :
  mlext_exact MsgLen mod 4 = 0 /\
  MsgLen <= mlext_exact MsgLen < MsgLen + 4.
Proof.
  rewrite mlext_exact_eq.
  pose proof (Z.mod_pos_bound MsgLen 4 ltac:(lia)) as Hr.
  pose proof (Z.div_mod MsgLen 4 ltac:(lia)) as Hd.
  destruct (Z.eq_dec (MsgLen mod 4) 0) as [H0|H0].
  - rewrite H0; change ((4 - 0) mod 4) with 0.
    rewrite Z.add_0_r; split; [assumption | lia].
  - rewrite (Z.mod_small (4 - MsgLen mod 4)) by lia.
    split; [|lia].
    replace (MsgLen + (4 - MsgLen mod 4)) with ((MsgLen / 4 + 1) * 4) by lia.
    apply Z.mod_mul; lia.
Qed.

Lemma c_exact_eq (MsgLen HashLen : Z) :
  0 <= MsgLen -> valid_HashLen HashLen ->
  c_exact MsgLen HashLen =
  mlext_exact MsgLen + HashLen +
  (hlm HashLen - mlext_exact MsgLen mod hlm HashLen).
Proof.
  intros HM HV; unfold c_exact.
  pose proof (hlm_facts HashLen HV). pose proof (mlext_exact_facts MsgLen).
  rewrite Z.rem_mod_nonneg by lia; reflexivity.
Qed.

Lemma c_exact_facts (MsgLen HashLen : Z) :
  0 <= MsgLen -> valid_HashLen HashLen ->
  mlext_exact MsgLen + HashLen + 4 <= c_exact MsgLen HashLen /\
  c_exact MsgLen HashLen mod 4 = 0 /\
  (c_exact MsgLen HashLen - HashLen) mod hlm HashLen = 0.
Proof.
  intros HM HV; rewrite c_exact_eq by assumption.
  pose proof (hlm_facts HashLen HV) as (Hh4 & Hhm & Hhl).
  pose proof (mlext_exact_facts MsgLen) as (Hmm & Hml).
  destruct HV as [HV4 HVm].
  set (h := hlm HashLen) in *. set (m := mlext_exact MsgLen) in *.
  pose proof (Z.mod_pos_bound m h ltac:(lia)) as Hr.
  pose proof (Z.div_mod m h ltac:(lia)) as Hd.
  assert (Hr4 : (m mod h) mod 4 = 0).
  { replace (m mod h) with (m - h / 4 * (m / h) * 4).
    - rewrite Zminus_mod, Z.mod_mul, Hmm by lia; reflexivity.
    - pose proof (Z.div_mod h 4 ltac:(lia)); nia. }
  repeat split.
  - assert (m mod h <= h - 4); [|lia].
    pose proof (Z.div_mod (m mod h) 4 ltac:(lia)).
    pose proof (Z.div_mod h 4 ltac:(lia)). lia.
  - replace (m + HashLen + (h - m mod h))
      with (m + (HashLen + (h + - (m mod h)))) by lia.
    rewrite Z.add_mod, Hmm by lia.
    rewrite (Z.add_mod HashLen), HVm by lia.
    rewrite (Z.add_mod h), Hhm by lia.
    rewrite (Z.mod_opp_l_z (m mod h) 4) by lia.
    reflexivity.
  - replace (m + HashLen + (h - m mod h) - HashLen) with ((m / h + 1) * h)
      by lia.
    apply Z.mod_mul; lia.
Qed.

(** *** The same lengths as [int]s *)

Lemma int_fits (z : Z) : - 2 ^ 31 <= z <= INT_MAX -> int z = z.
Proof.
  unfold int, INT_MAX; intros Hz; rewrite Z.mod_small; lia.
Qed.

Lemma int_mod4 (z : Z) : int z mod 4 = z mod 4.
Proof.
  unfold int.
  pose proof (Z.div_mod (z + 2 ^ 31) (2 ^ 32) ltac:(lia)) as Hd.
  replace ((z + 2 ^ 31) mod 2 ^ 32 - 2 ^ 31)
    with (z + - ((z + 2 ^ 31) / 2 ^ 32) * 2 ^ 30 * 4) by lia.
  apply Z.mod_add; lia.
Qed.

Lemma rem_mod4 (a b : Z) : a mod 4 = 0 -> b mod 4 = 0 -> Z.rem a b mod 4 = 0.
Proof.
  intros Ha Hb.
  pose proof (Z.quot_rem' a b) as Hq.
  pose proof (Z.div_mod a 4 ltac:(lia)) as Hda.
  pose proof (Z.div_mod b 4 ltac:(lia)) as Hdb.
  replace (Z.rem a b) with ((a / 4 - b / 4 * Z.quot a b) * 4) by lia.
  apply Z.mod_mul; lia.
Qed.

(** Whatever the lengths, the [int] [c] is a multiple of 4. *)
Lemma c_mod4 (MsgLen HashLen : Z) :
  valid_HashLen HashLen -> c MsgLen HashLen mod 4 = 0.
Proof.
  intros HV; pose proof (hlm_facts HashLen HV) as (_ & Hhm & _).
  destruct HV as [_ HVm].
  assert (Hm : mlext MsgLen mod 4 = 0).
  { unfold mlext; rewrite int_mod4; apply mlext_exact_facts. }
  pose proof (rem_mod4 _ _ Hm Hhm) as Hr.
  unfold c; rewrite int_mod4, Z.add_mod, !int_mod4 by lia.
  rewrite (Z.add_mod (mlext MsgLen)), Hm, HVm by lia.
  rewrite Zminus_mod, Hhm, Hr; reflexivity.
Qed.

(** Without overflow the [int]s are the integers of the formulas. *)
Lemma int_lengths_exact (MsgLen HashLen : Z) :
  0 <= MsgLen -> valid_HashLen HashLen -> no_int_overflow MsgLen HashLen ->
  mlext MsgLen = mlext_exact MsgLen /\
  c MsgLen HashLen = c_exact MsgLen HashLen.
Proof.
  intros HM HV Hno; unfold no_int_overflow, INT_MAX in Hno.
  pose proof (hlm_facts HashLen HV) as (Hh4 & Hhm & Hhl).
  pose proof (mlext_exact_facts MsgLen) as (Hmm & Hml).
  destruct (c_exact_facts MsgLen HashLen HM HV) as (Hc & _ & _).
  pose proof HV as [HV4 _].
  assert (Hm : mlext MsgLen = mlext_exact MsgLen)
    by (unfold mlext; apply int_fits; unfold INT_MAX; lia).
  split; [exact Hm|].
  unfold c; rewrite Hm.
  rewrite c_exact_eq in * by assumption.
  pose proof (Z.mod_pos_bound (mlext_exact MsgLen) (hlm HashLen) ltac:(lia)).
  rewrite Z.rem_mod_nonneg by lia.
  rewrite (int_fits (mlext_exact MsgLen + HashLen)) by (unfold INT_MAX; lia).
  rewrite (int_fits (hlm HashLen - _)) by (unfold INT_MAX; lia).
  apply int_fits; unfold INT_MAX; lia.
Qed.

Lemma mlext_facts (MsgLen HashLen : Z) :
  0 <= MsgLen -> valid_HashLen HashLen -> no_int_overflow MsgLen HashLen ->
  mlext MsgLen mod 4 = 0 /\ MsgLen <= mlext MsgLen < MsgLen + 4.
Proof.
  intros HM HV Hno.
  destruct (int_lengths_exact MsgLen HashLen HM HV Hno) as [-> _].
  apply mlext_exact_facts.
Qed.

Lemma c_eq (MsgLen HashLen : Z) :
  0 <= MsgLen -> valid_HashLen HashLen -> no_int_overflow MsgLen HashLen ->
  c MsgLen HashLen =
  mlext MsgLen + HashLen + (hlm HashLen - mlext MsgLen mod hlm HashLen).
Proof.
  intros HM HV Hno.
  destruct (int_lengths_exact MsgLen HashLen HM HV Hno) as [-> ->].
  now apply c_exact_eq.
Qed.

Lemma c_facts (MsgLen HashLen : Z) :
  0 <= MsgLen -> valid_HashLen HashLen -> no_int_overflow MsgLen HashLen ->
  mlext MsgLen + HashLen + 4 <= c MsgLen HashLen /\
  c MsgLen HashLen mod 4 = 0 /\
  (c MsgLen HashLen - HashLen) mod hlm HashLen = 0.
Proof.
  intros HM HV Hno.
  destruct (int_lengths_exact MsgLen HashLen HM HV Hno) as [-> ->].
  now apply c_exact_facts.
Qed.

(** ** The structure of the main loop *)

Section LoopFacts.

Variables (be : bool) (Msg : list byte) (MsgLen HashLen : Z).

Local Abbreviation body1 := (body be Msg MsgLen HashLen).
Local Abbreviation loop1 := (loop be Msg MsgLen HashLen).

Lemma k_iter (n : nat) (st : loop_state) :
  k (Nat.iter n body1 st) = k st + 4 * Z.of_nat n.
Proof.
  induction n as [|n IH]; [simpl; lia|].
  rewrite Nat.iter_succ; unfold body at 1; cbn [k].
  rewrite IH; lia.
Qed.

Lemma hpos_step (st : loop_state) :
  hpos (body1 st) =
  if hpos st + 4 =? hlm HashLen then 0 else hpos st + 4.
Proof. reflexivity. Qed.

Lemma hpos_iter (n : nat) (st : loop_state) :
  valid_HashLen HashLen -> hpos st = 0 ->
  hpos (Nat.iter n body1 st) = (4 * Z.of_nat n) mod hlm HashLen.
Proof.
  intros HV H0.
  pose proof (hlm_facts HashLen HV) as (Hh4 & Hhm & _).
  induction n as [|n IH]; [now rewrite Z.mod_0_l by lia|].
  rewrite Nat.iter_succ, hpos_step, IH.
  set (h := hlm HashLen) in *.
  replace (4 * Z.of_nat (S n)) with (4 * Z.of_nat n + 4) by lia.
  pose proof (Z.mod_pos_bound (4 * Z.of_nat n) h ltac:(lia)) as Hr.
  pose proof (Z.div_mod (4 * Z.of_nat n) h ltac:(lia)) as Hd.
  destruct (Z.eqb_spec ((4 * Z.of_nat n) mod h + 4) h) as [He|Hne].
  - symmetry.
    replace (4 * Z.of_nat n + 4) with ((4 * Z.of_nat n / h + 1) * h) by lia.
    apply Z.mod_mul; lia.
  - apply Z.mod_unique with (q := 4 * Z.of_nat n / h); [|lia].
    left.
    assert ((4 * Z.of_nat n) mod h mod 4 = 0).
    { replace ((4 * Z.of_nat n) mod h)
        with ((Z.of_nat n - h / 4 * (4 * Z.of_nat n / h)) * 4).
      - apply Z.mod_mul; lia.
      - pose proof (Z.div_mod h 4 ltac:(lia)); nia. }
    pose proof (Z.div_mod ((4 * Z.of_nat n) mod h) 4 ltac:(lia)).
    pose proof (Z.div_mod h 4 ltac:(lia)). lia.
Qed.

(** With [n] passes left before the guard fails and more fuel than that,
    the loop returns the state reached by [n] passes. *)
Lemma loop_iter (n fuel : nat) (st : loop_state) :
  (n < fuel)%nat ->
  k st + 4 * Z.of_nat n >= c MsgLen HashLen ->
  n = O \/ k st + 4 * (Z.of_nat n - 1) < c MsgLen HashLen ->
  loop1 fuel st = Some (Nat.iter n body1 st).
Proof.
  revert fuel st; induction n as [|n IH]; intros fuel st Hf Hge Hlt;
    (destruct fuel as [|fuel]; [lia|]); cbn [loop].
  - destruct (Z.ltb_spec (k st) (c MsgLen HashLen)); [lia | reflexivity].
  - destruct Hlt as [Hlt|Hlt]; [discriminate|].
    destruct (Z.ltb_spec (k st) (c MsgLen HashLen)); [|lia].
    rewrite Nat.iter_succ_r.
    apply IH; [lia | | right]; unfold body; cbn [k]; lia.
Qed.

End LoopFacts.

(** ** The run of the main loop *)

Lemma length_memset (p : list byte) (v n : Z) :
  length (memset p v n) = length p.
Proof.
  unfold memset; generalize (byte.of_Z v) (Z.to_nat n); intros b m.
  revert p; induction m as [|m IH]; intros [|h t]; simpl; auto.
Qed.

Section Run.

Variables (be : bool) (Msg : list byte) (MsgLen HashLen : Z).
Variables (Hash0 : list byte) (SeedXOR : Z) (InitVec : option (list byte)).

Local Abbreviation st := (state_at be Msg MsgLen HashLen Hash0 SeedXOR InitVec).

Lemma init_k_hpos :
  k (init be HashLen Hash0 SeedXOR InitVec) = 0 /\
  hpos (init be HashLen Hash0 SeedXOR InitVec) = 0.
Proof. destruct InitVec; split; reflexivity. Qed.

Lemma state_at_k (n : nat) : k (st n) = 4 * Z.of_nat n.
Proof.
  unfold state_at; rewrite k_iter.
  destruct init_k_hpos as [-> _]; lia.
Qed.

Lemma state_at_hpos (n : nat) :
  valid_HashLen HashLen -> hpos (st n) = (4 * Z.of_nat n) mod hlm HashLen.
Proof.
  intros HV; unfold state_at; apply hpos_iter; [assumption|].
  apply init_k_hpos.
Qed.

Lemma state_at_0 : st O = init be HashLen Hash0 SeedXOR InitVec.
Proof. reflexivity. Qed.

Lemma state_at_succ (n : nat) :
  st (S n) = body be Msg MsgLen HashLen (st n).
Proof. reflexivity. Qed.

Lemma state_at_length (n : nat) : length (Hash (st n)) = length Hash0.
Proof.
  induction n as [|n IH].
  - unfold state_at, init; destruct InitVec; cbn [Nat.iter Hash].
    + apply length_prvhash42_ec.
    + apply length_memset.
  - rewrite state_at_succ; unfold body; cbn [Hash].
    rewrite length_store32; exact IH.
Qed.

Lemma loop_run (fuel : nat) :
  0 <= MsgLen -> valid_HashLen HashLen ->
  (Z.to_nat (c MsgLen HashLen / 4) < fuel)%nat ->
  loop be Msg MsgLen HashLen fuel (init be HashLen Hash0 SeedXOR InitVec) =
  Some (st (Z.to_nat (c MsgLen HashLen / 4))).
Proof.
  intros HM HV Hf.
  pose proof (c_mod4 MsgLen HashLen HV) as Hc4.
  pose proof (Z.div_mod (c MsgLen HashLen) 4 ltac:(lia)) as Hd.
  unfold state_at; apply loop_iter; [assumption | |];
    destruct init_k_hpos as [-> _]; [lia|].
  destruct (Z.le_gt_cases (c MsgLen HashLen) 0); [left | right]; lia.
Qed.

End Run.

Lemma state_at_slot (be : bool) (Msg : list byte) (MsgLen HashLen : Z)
    (Hash0 : list byte) (SeedXOR : Z) (InitVec : option (list byte)) (n : nat) :
  valid_HashLen HashLen ->
  let st := state_at be Msg MsgLen HashLen Hash0 SeedXOR InitVec n in
  0 <= hpos st /\ hpos st mod 4 = 0 /\ hpos st + 4 <= hlm HashLen.
Proof.
  intros HV; cbv zeta; rewrite state_at_hpos by assumption.
  pose proof (hlm_facts HashLen HV) as (Hh4 & Hhm & _).
  set (h := hlm HashLen) in *. set (a := 4 * Z.of_nat n).
  pose proof (Z.mod_pos_bound a h ltac:(lia)) as Hr.
  pose proof (Z.div_mod a h ltac:(lia)) as Hd.
  pose proof (Z.div_mod h 4 ltac:(lia)) as Hd4.
  assert (Ha : (a mod h) mod 4 = 0).
  { replace (a mod h) with ((Z.of_nat n - h / 4 * (a / h)) * 4)
      by (unfold a in *; nia).
    apply Z.mod_mul; lia. }
  pose proof (Z.div_mod (a mod h) 4 ltac:(lia)).
  repeat split; try lia.
Qed.

(** ** The finalization fold *)

Lemma lxor_range (n a b : Z) :
  0 <= n -> 0 <= a < 2 ^ n -> 0 <= b < 2 ^ n -> 0 <= Z.lxor a b < 2 ^ n.
Proof.
  intros Hn Ha Hb.
  assert (H : Z.lxor a b mod 2 ^ n = Z.lxor (a mod 2 ^ n) (b mod 2 ^ n))
    by Z.bitblast.
  rewrite (Z.mod_small a), (Z.mod_small b) in H by lia.
  rewrite <- H; apply Z.mod_pos_bound, Z.pow_pos_nonneg; lia.
Qed.

Section FoldFacts.

Variables (be : bool) (HashLen : Z).

Lemma fold_iter (n fuel : nat) (i : Z) (h : list byte) :
  (n < fuel)%nat ->
  i + 4 * Z.of_nat n >= HashLen -> i + 4 * (Z.of_nat n - 1) < HashLen ->
  fold be HashLen fuel i h = Some (fold_n be HashLen n i h).
Proof.
  revert fuel i h; induction n as [|n IH]; intros fuel i h Hf Hge Hlt;
    (destruct fuel as [|fuel]; [lia|]); cbn [fold fold_n].
  - destruct (Z.ltb_spec i HashLen); [lia | reflexivity].
  - destruct (Z.ltb_spec i HashLen); [|lia].
    apply IH; lia.
Qed.

Lemma length_fold_n (n : nat) (i : Z) (h : list byte) :
  length (fold_n be HashLen n i h) = length h.
Proof.
  revert i h; induction n as [|n IH]; intros i h; cbn [fold_n];
    [reflexivity|].
  rewrite IH; apply length_store32.
Qed.

Lemma byte_at_fold_n_other (n : nat) (i j : Z) (h : list byte) :
  0 <= j -> j < i \/ i + 4 * Z.of_nat n <= j ->
  byte_at (fold_n be HashLen n i h) j = byte_at h j.
Proof.
  revert i h; induction n as [|n IH]; intros i h Hj Hij; cbn [fold_n];
    [reflexivity|].
  rewrite IH by lia.
  apply byte_at_store32_other; lia.
Qed.

Lemma load32_fold_n (n : nat) (i m : Z) (h : list byte) :
  0 <= i -> i + 4 * Z.of_nat n <= HashLen ->
  HashLen <= Z.of_nat (length h) ->
  0 <= m < Z.of_nat n ->
  load32 be (fold_n be HashLen n i h) (i + 4 * m) =
  Z.lxor (load32 be h (i + 4 * m)) (load32 be h (HashLen + (i + 4 * m))).
Proof.
  revert i m h; induction n as [|n IH]; intros i m h Hi Hn Hlen Hm; [lia|].
  cbn [fold_n].
  destruct (Z.eq_dec m 0) as [->|Hm0].
  - replace (i + 4 * 0) with i by lia.
    rewrite (load32_ext be _ (fold_step be HashLen h i)).
    + unfold fold_step. rewrite load32_store32 by lia.
      apply Z.mod_small, lxor_range; [lia | apply load32_range ..].
    + intros j Hj; apply byte_at_fold_n_other; lia.
  - replace (i + 4 * m) with (i + 4 + 4 * (m - 1)) by lia.
    rewrite IH by (unfold fold_step; rewrite ?length_store32; lia).
    unfold fold_step; rewrite !load32_store32_other by lia.
    reflexivity.
Qed.

End FoldFacts.

(** ** The whole function returns *)

Lemma prvhash42_returns (be : bool) (Msg : list byte) (MsgLen HashLen : Z)
    (fuel : nat) (Hash0 : list byte) (SeedXOR : Z)
    (InitVec : option (list byte)) :
  0 <= MsgLen -> valid_HashLen HashLen ->
  (Z.to_nat (c MsgLen HashLen / 4) < fuel)%nat ->
  let stc := state_at be Msg MsgLen HashLen Hash0 SeedXOR InitVec
               (Z.to_nat (c MsgLen HashLen / 4)) in
  prvhash42 be Msg MsgLen HashLen fuel Hash0 SeedXOR InitVec =
  Some (prvhash42_ec be
          (if 4 <? HashLen
           then fold_n be HashLen (Z.to_nat (HashLen / 4)) 0 (Hash stc)
           else Hash stc) HashLen).
Proof.
  intros HM HV Hf stc; unfold prvhash42.
  rewrite loop_run by assumption. fold stc. unfold finalize.
  pose proof HV as [HV4 HVm].
  rewrite hlm_eq.
  destruct (Z.eqb_spec HashLen 4) as [->|Hne]; [reflexivity|].
  destruct (Z.ltb_spec 4 (2 * HashLen)); [|lia].
  destruct (Z.ltb_spec 4 HashLen); [|lia].
  pose proof (Z.div_mod HashLen 4 ltac:(lia)) as Hd.
  rewrite (fold_iter be HashLen (Z.to_nat (HashLen / 4)));
    [reflexivity | | |]; rewrite ?Z2Nat.id; lia.
Qed.

(** * The claims *)

(** ** The cursor into the hash buffer *)



(** ** Termination and the number of iterations *)




(** ** Iterations past the end of the message *)

Lemma ph_of_range (be : bool) (st : loop_state) : 0 <= ph_of be st < 2 ^ 32.
Proof.
  unfold ph_of; apply lxor_range; [lia | apply load32_range |].
  pose proof (Z.mod_pos_bound (Z.lnot (u64 (Seed st * lcg st))) (2 ^ 64)
                ltac:(lia)) as Hr.
  rewrite Z.shiftr_div_pow2 by lia; fold (u64 (Z.lnot (u64 (Seed st * lcg st)))) in Hr.
  split; [apply Z.div_pos; lia|].
  apply Z.div_lt_upper_bound; lia.
Qed.

(** A pass stores its word [ph] at the cursor, where it is read back. *)
Lemma body_writes (be : bool) (Msg : list byte) (MsgLen HashLen : Z)
    (st : loop_state) :
  0 <= hpos st -> hpos st + 4 <= Z.of_nat (length (Hash st)) ->
  Hash (body be Msg MsgLen HashLen st) =
    store32 be (Hash st) (hpos st) (u32 (ph_of be st)) /\
  load32 be (Hash (body be Msg MsgLen HashLen st)) (hpos st) = ph_of be st.
Proof.
  intros H0 Hl.
  assert (He : Hash (body be Msg MsgLen HashLen st) =
               store32 be (Hash st) (hpos st) (u32 (ph_of be st)))
    by reflexivity.
  split; [exact He|].
  rewrite He, load32_store32 by assumption.
  unfold u32; rewrite Z.mod_mod by lia.
  apply Z.mod_small, ph_of_range.
Qed.

(** In a buffer of at least [hlm] bytes, the pass made from the state
    number [n] writes the slot that the cursor is at. *)
Lemma pass_writes_slot_at (be : bool) (Msg : list byte) (MsgLen HashLen : Z)
    (Hash0 : list byte) (SeedXOR : Z) (InitVec : option (list byte))
    (n : nat) (s : Z) :
  valid_HashLen HashLen -> hlm HashLen <= Z.of_nat (length Hash0) ->
  4 * Z.of_nat n < c MsgLen HashLen ->
  (4 * Z.of_nat n) mod hlm HashLen = s ->
  pass_writes_slot be Msg MsgLen HashLen Hash0 SeedXOR InitVec n s.
Proof.
  intros HV Hlen Hk Hs.
  assert (Hpos : hpos (state_at be Msg MsgLen HashLen Hash0 SeedXOR InitVec n)
                 = s) by (rewrite state_at_hpos; assumption).
  destruct (state_at_slot be Msg MsgLen HashLen Hash0 SeedXOR InitVec n HV)
    as (H0 & _ & H4).
  destruct (body_writes be Msg MsgLen HashLen
              (state_at be Msg MsgLen HashLen Hash0 SeedXOR InitVec n))
    as [Hst Hld]; [lia | rewrite state_at_length; lia |].
  unfold pass_writes_slot; cbv zeta.
  rewrite state_at_k, state_at_succ.
  rewrite Hpos in Hst, Hld.
  split; [exact Hk|]. split; [exact Hpos|]. split; [exact Hst | exact Hld].
Qed.

(** C2, as the code has it: for every [MsgLen >= 0] and valid [HashLen]
    for which lines 101 and 102 do not overflow [int], and a hash buffer
    of at least [hlm] bytes, [c] exceeds [mlext] by at least [HashLen + 4]
    and [c - HashLen] is a whole number of [hlm]-sized cycles; a 4-byte
    slot [s] of the hash buffer is written by a pass whose index [k] is at
    or past [mlext] exactly when [s < HashLen] or [s >= mlext mod hlm]: so
    every slot of the output half and every slot from [mlext mod hlm] on
    is, and the scratch slots in between are not. *)
Theorem slots_written_after_message (be : bool) (Msg : list byte)
    (MsgLen HashLen : Z) (Hash0 : list byte) (SeedXOR : Z)
    (InitVec : option (list byte)) :
  0 <= MsgLen -> valid_HashLen HashLen -> no_int_overflow MsgLen HashLen ->
  hlm HashLen <= Z.of_nat (length Hash0) ->
  mlext MsgLen + HashLen + 4 <= c MsgLen HashLen /\
  (c MsgLen HashLen - HashLen) mod hlm HashLen = 0 /\
  forall s : Z, 0 <= s < hlm HashLen -> s mod 4 = 0 ->
    (written_after_message be Msg MsgLen HashLen Hash0 SeedXOR InitVec s <->
     s < HashLen \/ mlext MsgLen mod hlm HashLen <= s).
Proof.
  intros HM HV Hno Hlen.
  destruct (c_facts MsgLen HashLen HM HV Hno) as (Hc & Hc4 & Hch).
  pose proof (c_eq MsgLen HashLen HM HV Hno) as Hce.
  pose proof (hlm_facts HashLen HV) as (Hh4 & Hhm & Hhl).
  pose proof (mlext_facts MsgLen HashLen HM HV Hno) as [Hmm Hml].
  pose proof HV as [HV4 HVm].
  split; [exact Hc|]. split; [exact Hch|].
  intros s Hs Hs4.
  set (cc := c MsgLen HashLen) in *. set (h := hlm HashLen) in *.
  set (m := mlext MsgLen) in *.
  pose proof (Z.mod_pos_bound m h ltac:(lia)) as Hr.
  pose proof (Z.div_mod m h ltac:(lia)) as Hdm.
  pose proof (Z.div_mod h 4 ltac:(lia)) as Hdh.
  pose proof (Z.div_mod s 4 ltac:(lia)) as Hds.
  pose proof (Z.div_mod cc 4 ltac:(lia)) as Hdc.
  pose proof (Z.div_mod HashLen 4 ltac:(lia)) as HdH.
  split.
  - intros (n & Hm & Hk & Hh & _).
    rewrite state_at_k in Hm, Hk.
    rewrite state_at_hpos in Hh by assumption. fold h in Hh.
    set (a := 4 * Z.of_nat n) in *.
    pose proof (Z.mod_pos_bound a h ltac:(lia)) as Hra.
    pose proof (Z.div_mod a h ltac:(lia)) as Hda.
    assert (Hq : a / h = m / h \/ a / h = m / h + 1) by nia.
    destruct Hq as [Hq|Hq]; rewrite Hq in Hda; [right | left]; lia.
  - intros [Hlt|Hge].
    + exists (Z.to_nat (cc / 4 - HashLen / 4 + s / 4)).
      rewrite state_at_k, Z2Nat.id by lia.
      replace (4 * (cc / 4 - HashLen / 4 + s / 4)) with (cc - HashLen + s)
        by lia.
      split; [lia|].
      apply pass_writes_slot_at; try assumption; rewrite Z2Nat.id by lia;
        replace (4 * (cc / 4 - HashLen / 4 + s / 4)) with (cc - HashLen + s)
          by lia; [lia|].
      fold h. rewrite Z.add_mod, Hch, Z.add_0_l, Z.mod_mod by lia.
      apply Z.mod_small; lia.
    + assert (Ha : 4 * (h / 4 * (m / h) + s / 4) = h * (m / h) + s) by nia.
      assert (Hq : 0 <= m / h) by (apply Z.div_pos; lia).
      exists (Z.to_nat (h / 4 * (m / h) + s / 4)).
      rewrite state_at_k, Z2Nat.id by nia.
      rewrite Ha.
      split; [lia|].
      apply pass_writes_slot_at; try assumption; rewrite Z2Nat.id by nia;
        rewrite Ha; [fold cc; lia|].
      fold h. symmetry; apply Z.mod_unique with (q := m / h); lia.
Qed.

Lemma slots_written_after_message_witness :
  0 <= 12 /\ valid_HashLen 8 /\ no_int_overflow 12 8 /\
  hlm 8 <= Z.of_nat (length (zero_buffer 16)) /\
  mlext 12 + 8 + 4 <= c 12 8 /\
  (c 12 8 - 8) mod hlm 8 = 0 /\
  forall s : Z, 0 <= s < hlm 8 -> s mod 4 = 0 ->
    (written_after_message false msg12 12 8 (zero_buffer 16) 0 None s <->
     s < 8 \/ mlext 12 mod hlm 8 <= s).
Proof.
  assert (HM : 0 <= 12) by lia.
  assert (HV : valid_HashLen 8) by (split; [lia | reflexivity]).
  assert (Hno : no_int_overflow 12 8) by (vm_compute; discriminate).
  assert (Hl : hlm 8 <= Z.of_nat (length (zero_buffer 16)))
    by (vm_compute; discriminate).
  split; [exact HM|]. split; [exact HV|]. split; [exact Hno|].
  split; [exact Hl|].
  exact (slots_written_after_message false msg12 12 8 (zero_buffer 16) 0 None
           HM HV Hno Hl).
Defined.

(** C2, as stated, fails.  With a 12-byte message and [HashLen = 8]
    ([hlm = 16], [mlext = 12], [c = 24]) the passes at or past [mlext] are
    [k = 12, 16, 20], which is 12 bytes and not a whole number of 16-byte
    cycles, and they store to the slots 12, 0 and 4: the slot at offset 8
    is last written at [k = 8], with a word of the message.  And with a
    message of 2147483644 bytes and [HashLen = 4] the sum of line 102
    overflows, [c] is negative and no pass is made, so that no slot is
    written at all. *)
Lemma scratch_slot_not_written_after_message :
  (c 12 8 - mlext 12) mod hlm 8 <> 0 /\
  ~ every_slot_written_after_message false msg12 12 8 (zero_buffer 16) 0 None /\
  forall (be : bool) (Msg Hash0 : list byte) (SeedXOR : Z)
         (InitVec : option (list byte)),
    ~ every_slot_written_after_message be Msg 2147483644 4 Hash0 SeedXOR
        InitVec.
Proof.
  split; [vm_compute; discriminate|].
  split.
  - intros H.
    destruct (H 8) as (n & Hm & Hk & Hh & _);
      [vm_compute; split; congruence | reflexivity |].
    rewrite state_at_k in Hk, Hm.
    rewrite state_at_hpos in Hh by (split; [lia | reflexivity]).
    change (c 12 8) with 24 in Hk. change (mlext 12) with 12 in Hm.
    change (hlm 8) with 16 in Hh.
    assert (Hn : (n = 3 \/ n = 4 \/ n = 5)%nat) by lia.
    destruct Hn as [-> | [-> | ->]]; vm_compute in Hh; discriminate.
  - intros be Msg Hash0 SeedXOR InitVec H.
    destruct (H 0) as (n & _ & Hk & _);
      [vm_compute; split; congruence | reflexivity |].
    rewrite state_at_k in Hk.
    change (c 2147483644 4) with (-2147483644) in Hk. lia.
Qed.

(** ** The message word and the filler byte *)

Lemma u8_lnot (b : Z) : 0 <= b < 2 ^ 8 -> u8 (Z.lnot b) = 255 - b.
Proof.
  intros Hb; unfold u8, Z.lnot.
  symmetry; apply Z.mod_unique with (q := -1); lia.
Qed.

Lemma lb_eq (Msg : list byte) (MsgLen : Z) :
  lb Msg MsgLen =
  if 0 <? MsgLen then 255 - byte_at Msg (MsgLen - 1) else 255.
Proof.
  unfold lb; destruct (0 <? MsgLen); [|reflexivity].
  apply u8_lnot, byte_at_range.
Qed.

Lemma lb_range (Msg : list byte) (MsgLen : Z) : 0 <= lb Msg MsgLen < 2 ^ 8.
Proof. unfold lb, u8; apply Z.mod_pos_bound; lia. Qed.

Lemma u32_shiftl_byte (b n : Z) :
  0 <= b < 2 ^ 8 -> 0 <= n <= 24 -> u32 (Z.shiftl (u32 b) n) = Z.shiftl b n.
Proof.
  intros Hb Hn; unfold u32.
  rewrite (Z.mod_small b) by lia.
  rewrite Z.shiftl_mul_pow2 by lia.
  apply Z.mod_small.
  assert (0 < 2 ^ n <= 2 ^ 24)
    by (split; [apply Z.pow_pos_nonneg | apply Z.pow_le_mono_r]; lia).
  change (2 ^ 32) with (2 ^ 8 * 2 ^ 24); nia.
Qed.

Lemma msgw_sum (Msg : list byte) (MsgLen i : Z) :
  let lbv := lb Msg MsgLen in
  let pick o := if i + o <? MsgLen then byte_at Msg (i + o) else lbv in
  msgw Msg MsgLen i =
  if i <=? MsgLen - 4
  then byte_at Msg i + 2 ^ 8 * byte_at Msg (i + 1) +
       2 ^ 16 * byte_at Msg (i + 2) + 2 ^ 24 * byte_at Msg (i + 3)
  else pick 0 + 2 ^ 8 * pick 1 + 2 ^ 16 * pick 2 + 2 ^ 24 * lbv.
Proof.
  intros lbv pick; unfold msgw.
  destruct (Z.ltb_spec i (MsgLen - 3)), (Z.leb_spec i (MsgLen - 4)); try lia.
  - unfold prvhash42_u32ec; apply word_of_bytes_sum; apply byte_at_range.
  - fold lbv.
    assert (Hp : forall o, 0 <= pick o < 2 ^ 8).
    { intros o; unfold pick; destruct (i + o <? MsgLen);
        [apply byte_at_range | apply lb_range]. }
    replace (if i <? MsgLen then byte_at Msg i else lbv) with (pick 0)
      by (unfold pick; now rewrite Z.add_0_r).
    replace (if i <? MsgLen - 1 then byte_at Msg (i + 1) else lbv)
      with (pick 1)
      by (unfold pick; destruct (Z.ltb_spec i (MsgLen - 1)),
            (Z.ltb_spec (i + 1) MsgLen); try lia; reflexivity).
    replace (if i <? MsgLen - 2 then byte_at Msg (i + 2) else lbv)
      with (pick 2)
      by (unfold pick; destruct (Z.ltb_spec i (MsgLen - 2)),
            (Z.ltb_spec (i + 2) MsgLen); try lia; reflexivity).
    rewrite !u32_shiftl_byte by (try apply Hp; try apply lb_range; lia).
    unfold u32 at 1; rewrite (Z.mod_small (pick 0)) by (specialize (Hp 0); lia).
    apply (word_of_bytes_sum (pick 0) (pick 1) (pick 2) lbv); apply Hp.
Qed.

Lemma msgw_range (Msg : list byte) (MsgLen i : Z) :
  0 <= msgw Msg MsgLen i < 2 ^ 32.
Proof.
  rewrite msgw_sum.
  pose proof (lb_range Msg MsgLen).
  pose proof (byte_at_range Msg i). pose proof (byte_at_range Msg (i + 1)).
  pose proof (byte_at_range Msg (i + 2)). pose proof (byte_at_range Msg (i + 3)).
  pose proof (byte_at_range Msg (i + 0)).
  destruct (i <=? MsgLen - 4); [lia|].
  destruct (i + 0 <? MsgLen), (i + 1 <? MsgLen), (i + 2 <? MsgLen); lia.
Qed.

(** C3: the message word of the step at index [i] (for every [i], so for
    every step [k] of the loop): if [i <= MsgLen - 4] it is the word whose
    bytes, least significant first, are the message bytes at [i .. i+3];
    otherwise the bytes at offsets 0, 1, 2 are the message bytes where
    [i + offset < MsgLen] and the filler [lb] elsewhere, and the most
    significant byte is [lb]; [lb] is the complement [255 - b] of the last
    message byte [b], and [0xFF] for the empty message. *)
Theorem message_word (Msg : list byte) (MsgLen i : Z) :
  let lbv := if 0 <? MsgLen then 255 - byte_at Msg (MsgLen - 1) else 255 in
  let pick o := if i + o <? MsgLen then byte_at Msg (i + o) else lbv in
  lb Msg MsgLen = lbv /\
  lb Msg 0 = 255 /\
  msgw Msg MsgLen i =
  (if i <=? MsgLen - 4
   then byte_at Msg i + 2 ^ 8 * byte_at Msg (i + 1) +
        2 ^ 16 * byte_at Msg (i + 2) + 2 ^ 24 * byte_at Msg (i + 3)
   else pick 0 + 2 ^ 8 * pick 1 + 2 ^ 16 * pick 2 + 2 ^ 24 * lbv).
Proof.
  intros lbv pick.
  split; [apply lb_eq|]. split; [reflexivity|].
  rewrite msgw_sum; unfold pick, lbv; rewrite !lb_eq; reflexivity.
Qed.

(** C10: for every non-empty message the filler byte [lb] differs from the
    last message byte: it is [255 - b] for the last byte [b], and
    [255 - b = b] has no solution. *)
Theorem lb_differs_from_last_byte (Msg : list byte) (MsgLen : Z) :
  0 < MsgLen ->
  lb Msg MsgLen = 255 - byte_at Msg (MsgLen - 1) /\
  lb Msg MsgLen <> byte_at Msg (MsgLen - 1).
Proof.
  intros HM; rewrite lb_eq.
  destruct (Z.ltb_spec 0 MsgLen); [|lia].
  split; [reflexivity | lia].
Qed.

Lemma lb_differs_from_last_byte_witness :
  0 < 3 /\
  lb msg_abc 3 = 255 - byte_at msg_abc (3 - 1) /\
  lb msg_abc 3 <> byte_at msg_abc (3 - 1).
Proof.
  assert (HM : 0 < 3) by lia.
  split; [exact HM|].
  exact (lb_differs_from_last_byte msg_abc 3 HM).
Defined.

(** ** The mixing step *)

Lemma u64_lnot (x : Z) : 0 <= x < 2 ^ 64 -> u64 (Z.lnot x) = 2 ^ 64 - 1 - x.
Proof.
  intros Hx; unfold u64, Z.lnot.
  symmetry; apply Z.mod_unique with (q := -1); lia.
Qed.

Lemma high_half_range (x : Z) : 0 <= x < 2 ^ 64 -> 0 <= x / 2 ^ 32 < 2 ^ 32.
Proof.
  intros Hx; split; [apply Z.div_pos; lia|].
  apply Z.div_lt_upper_bound; lia.
Qed.

(** C1: one mixing step, with all 64-bit arithmetic modulo [2 ^ 64]:
    [Seed1], the complement of [Seed * lcg], is formed from the old [lcg];
    [hl] is the high half of the old [lcg] XOR the message word; the new
    [lcg] is the old one plus [Seed1]; [ph] is the hash word at [hpos] XOR
    the high half of [Seed1]; the new [Seed] is [Seed1 XOR ph XOR hl]; and
    [ph], which fits in 32 bits, is stored at [hpos], where it can be read
    back, the rest of the buffer being left as it was.  The 64-bit range of
    [Seed] and [lcg] is kept. *)
Theorem mixing_step (be : bool) (Msg : list byte) (MsgLen HashLen : Z)
    (st : loop_state) :
  let st' := body be Msg MsgLen HashLen st in
  let hc := load32 be (Hash st) (hpos st) in
  let Seed1 := 2 ^ 64 - 1 - (Seed st * lcg st) mod 2 ^ 64 in
  let hl := Z.lxor (lcg st / 2 ^ 32) (msgw Msg MsgLen (k st)) in
  let ph := Z.lxor hc (Seed1 / 2 ^ 32) in
  lcg st' = (lcg st + Seed1) mod 2 ^ 64 /\
  Seed st' = Z.lxor (Z.lxor Seed1 ph) hl /\
  0 <= ph < 2 ^ 32 /\
  Hash st' = store32 be (Hash st) (hpos st) ph /\
  (0 <= hpos st -> hpos st + 4 <= Z.of_nat (length (Hash st)) ->
   load32 be (Hash st') (hpos st) = ph /\
   forall j : Z, 0 <= j -> j < hpos st \/ hpos st + 4 <= j ->
     byte_at (Hash st') j = byte_at (Hash st) j) /\
  (0 <= Seed st < 2 ^ 64 -> 0 <= lcg st < 2 ^ 64 ->
   0 <= Seed st' < 2 ^ 64 /\ 0 <= lcg st' < 2 ^ 64).
Proof.
  intros st' hc Seed1 hl ph.
  assert (HS1 : u64 (Z.lnot (u64 (Seed st * lcg st))) = Seed1).
  { rewrite u64_lnot by (apply Z.mod_pos_bound; lia); reflexivity. }
  assert (HS1r : 0 <= Seed1 < 2 ^ 64).
  { pose proof (Z.mod_pos_bound (Seed st * lcg st) (2 ^ 64) ltac:(lia)).
    unfold Seed1; lia. }
  assert (Hph : 0 <= ph < 2 ^ 32).
  { apply lxor_range; [lia | apply load32_range | now apply high_half_range]. }
  assert (Hst' : st' =
    {| k := k st + 4;
       Seed := Z.lxor Seed1 (Z.lxor ph hl);
       lcg := u64 (lcg st + Seed1);
       hpos := if hpos st + 4 =? hlm HashLen then 0 else hpos st + 4;
       Hash := store32 be (Hash st) (hpos st) ph |}).
  { unfold st', body. rewrite HS1, !Z.shiftr_div_pow2 by lia.
    fold hc; fold hl; fold ph.
    unfold u32 at 1; rewrite (Z.mod_small ph) by assumption.
    reflexivity. }
  rewrite Hst'; cbn [lcg Seed Hash].
  split; [reflexivity|].
  split; [now rewrite Z.lxor_assoc|].
  split; [assumption|].
  split; [reflexivity|].
  split.
  - intros H0 Hlen; split.
    + rewrite load32_store32 by assumption. now apply Z.mod_small.
    + intros j Hj Hout; now apply byte_at_store32_other.
  - intros HSeed Hlcg; split; [|apply Z.mod_pos_bound; lia].
    apply lxor_range; [lia | assumption |].
    apply lxor_range; [lia | lia |].
    pose proof (msgw_range Msg MsgLen (k st)).
    pose proof (high_half_range (lcg st) Hlcg).
    assert (0 <= hl < 2 ^ 32) by (apply lxor_range; lia).
    lia.
Qed.

Lemma mixing_step_witness :
  let st := init false 4 (zero_buffer 4) 0 None in
  let st' := body false msg_abc 3 4 st in
  let hc := load32 false (Hash st) (hpos st) in
  let Seed1 := 2 ^ 64 - 1 - (Seed st * lcg st) mod 2 ^ 64 in
  let hl := Z.lxor (lcg st / 2 ^ 32) (msgw msg_abc 3 (k st)) in
  let ph := Z.lxor hc (Seed1 / 2 ^ 32) in
  (0 <= hpos st /\ hpos st + 4 <= Z.of_nat (length (Hash st))) /\
  (0 <= Seed st < 2 ^ 64 /\ 0 <= lcg st < 2 ^ 64) /\
  load32 false (Hash st') (hpos st) = ph /\
  0 <= Seed st' < 2 ^ 64 /\ 0 <= lcg st' < 2 ^ 64.
Proof.
  intros st st' hc Seed1 hl ph.
  assert (H0 : 0 <= hpos st /\ hpos st + 4 <= Z.of_nat (length (Hash st)))
    by (vm_compute; split; congruence).
  assert (HS : 0 <= Seed st < 2 ^ 64 /\ 0 <= lcg st < 2 ^ 64)
    by (vm_compute; repeat split; congruence).
  destruct (mixing_step false msg_abc 3 4 st)
    as (_ & _ & _ & _ & Hload & Hrange).
  split; [exact H0|]. split; [exact HS|].
  destruct (Hload (proj1 H0) (proj2 H0)) as [Hl _].
  destruct (Hrange (proj1 HS) (proj2 HS)) as [Hr1 Hr2].
  split; [exact Hl|]. split; [exact Hr1 | exact Hr2].
Defined.

(** ** The state on entry to the loop *)

Lemma u64ec_sum (p : list byte) (i : Z) :
  prvhash42_u64ec p i =
  byte_at p i + 2 ^ 8 * byte_at p (i + 1) + 2 ^ 16 * byte_at p (i + 2) +
  2 ^ 24 * byte_at p (i + 3) + 2 ^ 32 * byte_at p (i + 4) +
  2 ^ 40 * byte_at p (i + 5) + 2 ^ 48 * byte_at p (i + 6) +
  2 ^ 56 * byte_at p (i + 7).
Proof.
  unfold prvhash42_u64ec.
  pose proof (word_of_bytes_range (byte_at p i) (byte_at p (i + 1))
    (byte_at p (i + 2)) (byte_at p (i + 3)) (byte_at_range _ _)
    (byte_at_range _ _) (byte_at_range _ _) (byte_at_range _ _)) as Hlo.
  unfold prvhash42_u32ec at 1.
  rewrite lor_shiftl_add by (try assumption; lia).
  unfold prvhash42_u32ec.
  rewrite !word_of_bytes_sum by apply byte_at_range.
  replace (i + 4 + 1) with (i + 5) by lia.
  replace (i + 4 + 2) with (i + 6) by lia.
  replace (i + 4 + 3) with (i + 7) by lia.
  lia.
Qed.

(** C7: on the path with a null [InitVec] the loop is entered with [lcg]
    equal to the constant 15252113002925621231 and [Seed] equal to
    17412655673657598932 XOR [SeedXOR]; whatever [SeedXOR] is, [lcg] is not
    zero, so [Seed] and [lcg] are not both zero ([Seed] alone is zero for
    exactly one value of [SeedXOR]). *)
Theorem default_seed_not_both_zero (be : bool) (Msg : list byte)
    (MsgLen HashLen : Z) (Hash0 : list byte) (SeedXOR : Z) :
  let s := state_at be Msg MsgLen HashLen Hash0 SeedXOR None O in
  s = init be HashLen Hash0 SeedXOR None /\
  lcg s = 15252113002925621231 /\
  Seed s = Z.lxor 17412655673657598932 SeedXOR /\
  lcg s <> 0 /\
  ~ (Seed s = 0 /\ lcg s = 0) /\
  (Seed s = 0 <-> SeedXOR = 17412655673657598932).
Proof.
  intros s; subst s; rewrite state_at_0; cbn [init lcg Seed].
  repeat split; try discriminate.
  - intros [_ H]; discriminate.
  - intros H; apply Z.lxor_eq in H; congruence.
  - intros ->; apply Z.lxor_nilpotent.
Qed.

(** With a caller-supplied vector the entry state is the caller's: sixteen
    zero bytes give [Seed = 0] and [lcg = 0]. *)
Lemma zero_InitVec_state :
  let s := init false 4 (zero_buffer 4) 0 (Some (zero_buffer 16)) in
  Seed s = 0 /\ lcg s = 0.
Proof. split; reflexivity. Qed.



(** ** Finalization *)



(** ** The empty message *)

(** With the default seed the empty message has a digest that is the same
    on both kinds of host and is not all zero, at the widths 4, 8, 16, 32
    and 64. *)
Lemma empty_message_digest_samples :
  Forall (fun HashLen : Z =>
            exists d : list byte,
              empty_digest false HashLen = Some d /\
              empty_digest true HashLen = Some d /\
              d <> zero_buffer (Z.to_nat HashLen))
         [4; 8; 16; 32; 64].
Proof.
  repeat constructor;
    (eexists; split; [vm_compute; reflexivity |
                      split; [vm_compute; reflexivity | discriminate]]).
Qed.

(** The digest of ["abc"] at width 4 with the default seed, on both kinds
    of host. *)
Example abc_digest :
  option_map (digest 4) (prvhash42 false msg_abc 3 4 8 (zero_buffer 4) 0 None) =
    Some (bytes_of [28; 116; 129; 86]) /\
  option_map (digest 4) (prvhash42 true msg_abc 3 4 8 (zero_buffer 4) 0 None) =
    Some (bytes_of [28; 116; 129; 86]).
Proof. split; vm_compute; reflexivity. Qed.

(** * Further properties of the function *)

(** ** More on buffers *)

Lemma nth_memset_nat (m : nat) (p : list byte) (v d : byte) (i : nat) :
  nth i (memset_nat p v m) d =
  if (i <? m)%nat && (i <? length p)%nat then v else nth i p d.
Proof.
  revert p i; induction m as [|m IH]; intros p i.
  - destruct p; reflexivity.
  - destruct p as [|h t].
    + cbn [memset_nat length]. change (i <? 0)%nat with false.
      now rewrite Bool.andb_false_r.
    + destruct i as [|i]; [reflexivity|].
      cbn [memset_nat nth]; rewrite IH; reflexivity.
Qed.

Lemma byte_at_memset_in (p : list byte) (v n i : Z) :
  0 <= i < n -> i < Z.of_nat (length p) -> byte_at (memset p v n) i = u8 v.
Proof.
  intros Hi Hl; unfold byte_at, memset; rewrite nth_memset_nat.
  destruct (Nat.ltb_spec (Z.to_nat i) (Z.to_nat n)); [|lia].
  destruct (Nat.ltb_spec (Z.to_nat i) (length p)); [|lia].
  apply byte.unsigned_of_Z.
Qed.

Lemma byte_at_memset_other (p : list byte) (v n i : Z) :
  0 <= n <= i -> byte_at (memset p v n) i = byte_at p i.
Proof.
  intros Hi; unfold byte_at, memset; rewrite nth_memset_nat.
  destruct (Nat.ltb_spec (Z.to_nat i) (Z.to_nat n)); [lia | reflexivity].
Qed.

Lemma load32_prvhash42_ec (be : bool) (p : list byte) (len j : Z) :
  len <= Z.of_nat (length p) -> 0 <= j -> j mod 4 = 0 -> j + 4 <= len ->
  load32 be (prvhash42_ec be p len) j = prvhash42_u32ec p j.
Proof.
  intros Hlen Hj Hal Hj4; unfold prvhash42_ec, prvhash42_u32ec, load32.
  destruct be; [|reflexivity].
  pose proof (Z.div_mod j 4 ltac:(lia)) as Hdj.
  pose proof (Z.div_mod len 4 ltac:(lia)) as Hdl.
  pose proof (Z.mod_pos_bound len 4 ltac:(lia)) as Hml.
  assert (Hq : 0 <= j / 4 < len / 4) by lia.
  assert (Hn : 0 + 4 * Z.of_nat (Z.to_nat (len / 4)) <= Z.of_nat (length p))
    by lia.
  pose proof (fun o Ho =>
    byte_at_swap_words (Z.to_nat (len / 4)) p 0 (j / 4) o
      (Z.le_refl 0) Hn ltac:(lia) Ho) as Hsw.
  replace (0 + 4 * (j / 4)) with j in Hsw by lia.
  pose proof (Hsw 0 ltac:(lia)) as H0. pose proof (Hsw 1 ltac:(lia)) as H1.
  pose proof (Hsw 2 ltac:(lia)) as H2. pose proof (Hsw 3 ltac:(lia)) as H3.
  rewrite Z.add_0_r in H0.
  replace (j + 3 - 0) with (j + 3) in H0 by lia.
  replace (j + 3 - 1) with (j + 2) in H1 by lia.
  replace (j + 3 - 2) with (j + 1) in H2 by lia.
  replace (j + 3 - 3) with j in H3 by lia.
  now rewrite H0, H1, H2, H3.
Qed.

Lemma word_of_bytes_inj (a0 a1 a2 a3 b0 b1 b2 b3 : Z) :
  0 <= a0 < 2 ^ 8 -> 0 <= a1 < 2 ^ 8 -> 0 <= a2 < 2 ^ 8 -> 0 <= a3 < 2 ^ 8 ->
  0 <= b0 < 2 ^ 8 -> 0 <= b1 < 2 ^ 8 -> 0 <= b2 < 2 ^ 8 -> 0 <= b3 < 2 ^ 8 ->
  word_of_bytes a0 a1 a2 a3 = word_of_bytes b0 b1 b2 b3 ->
  a0 = b0 /\ a1 = b1 /\ a2 = b2 /\ a3 = b3.
Proof.
  intros; rewrite !word_of_bytes_sum in * by assumption; lia.
Qed.

Lemma u32ec_bytes (p q : list byte) (j i : Z) :
  prvhash42_u32ec p j = prvhash42_u32ec q j -> j <= i < j + 4 ->
  byte_at p i = byte_at q i.
Proof.
  unfold prvhash42_u32ec; intros H Hi.
  apply word_of_bytes_inj in H; try apply byte_at_range.
  destruct H as (H0 & H1 & H2 & H3).
  assert (i = j \/ i = j + 1 \/ i = j + 2 \/ i = j + 3)
    as [-> | [-> | [-> | ->]]] by lia; assumption.
Qed.

Lemma u32ec_ext (p q : list byte) (j : Z) :
  (forall i : Z, j <= i < j + 4 -> byte_at p i = byte_at q i) ->
  prvhash42_u32ec p j = prvhash42_u32ec q j.
Proof.
  intros H; unfold prvhash42_u32ec.
  rewrite (H j), (H (j + 1)), (H (j + 2)), (H (j + 3)) by lia; reflexivity.
Qed.

Lemma firstn_ext (n : nat) (p q : list byte) :
  (n <= length p)%nat -> (n <= length q)%nat ->
  (forall i : nat, (i < n)%nat -> nth i p Byte.x00 = nth i q Byte.x00) ->
  firstn n p = firstn n q.
Proof.
  revert p q; induction n as [|n IH]; intros [|a p] [|b q] Hp Hq H;
    simpl in *; try lia; try reflexivity.
  f_equal.
  - apply (H O); lia.
  - apply IH; try lia. intros i Hi; apply (H (S i)); lia.
Qed.

Lemma digest_ext (HashLen : Z) (p q : list byte) :
  HashLen <= Z.of_nat (length p) -> HashLen <= Z.of_nat (length q) ->
  (forall i : Z, 0 <= i < HashLen -> byte_at p i = byte_at q i) ->
  digest HashLen p = digest HashLen q.
Proof.
  intros Hp Hq H; unfold digest; apply firstn_ext; try lia.
  intros i Hi; apply byte.unsigned_inj.
  specialize (H (Z.of_nat i) ltac:(lia)); unfold byte_at in H.
  now rewrite Nat2Z.id in H.
Qed.

Lemma length_digest (HashLen : Z) (p : list byte) :
  0 <= HashLen <= Z.of_nat (length p) ->
  Z.of_nat (length (digest HashLen p)) = HashLen.
Proof.
  intros H; unfold digest; rewrite length_firstn; lia.
Qed.

(** ** Two runs side by side *)

Lemma aligned_apart (i j : Z) :
  i mod 4 = 0 -> j mod 4 = 0 -> i <> j -> j + 4 <= i \/ i + 4 <= j.
Proof.
  intros Hi Hj Hne.
  pose proof (Z.div_mod i 4 ltac:(lia)). pose proof (Z.div_mod j 4 ltac:(lia)).
  lia.
Qed.

Section TwoRuns.

Variables (be1 be2 : bool) (Msg1 Msg2 : list byte) (MsgLen HashLen : Z).

Hypothesis HV : valid_HashLen HashLen.

Hypothesis Hmsg :
  forall i : Z, 0 <= i -> msgw Msg1 MsgLen i = msgw Msg2 MsgLen i.

Lemma body_same_state (s1 s2 : loop_state) :
  same_state be1 be2 (hlm HashLen) s1 s2 ->
  0 <= k s1 ->
  0 <= hpos s1 -> hpos s1 mod 4 = 0 -> hpos s1 + 4 <= hlm HashLen ->
  hlm HashLen <= Z.of_nat (length (Hash s1)) ->
  hlm HashLen <= Z.of_nat (length (Hash s2)) ->
  same_state be1 be2 (hlm HashLen)
    (body be1 Msg1 MsgLen HashLen s1) (body be2 Msg2 MsgLen HashLen s2).
Proof.
  intros (Hk & HS & Hl & Hh & Hw) Hk0 Hh0 Hh4 Hhh Hl1 Hl2.
  unfold same_state, body; cbn [k Seed lcg hpos Hash].
  rewrite <- Hk, <- HS, <- Hl, <- Hh, <- (Hmsg (k s1)) by assumption.
  rewrite <- (Hw (hpos s1)) by assumption.
  repeat split; try reflexivity.
  intros j Hj Hj4 Hjh.
  destruct (Z.eq_dec j (hpos s1)) as [->|Hne].
  - rewrite !load32_store32 by lia; reflexivity.
  - pose proof (aligned_apart _ _ Hh4 Hj4 ltac:(congruence)).
    rewrite !load32_store32_other by lia.
    apply Hw; assumption.
Qed.

Variables (Hash1 Hash2 : list byte) (SeedXOR1 SeedXOR2 : Z).
Variables (InitVec1 InitVec2 : option (list byte)).

Hypothesis Hlen1 : hlm HashLen <= Z.of_nat (length Hash1).
Hypothesis Hlen2 : hlm HashLen <= Z.of_nat (length Hash2).

Hypothesis Hinit :
  same_state be1 be2 (hlm HashLen)
    (init be1 HashLen Hash1 SeedXOR1 InitVec1)
    (init be2 HashLen Hash2 SeedXOR2 InitVec2).

Lemma run_same_state (n : nat) :
  same_state be1 be2 (hlm HashLen)
    (state_at be1 Msg1 MsgLen HashLen Hash1 SeedXOR1 InitVec1 n)
    (state_at be2 Msg2 MsgLen HashLen Hash2 SeedXOR2 InitVec2 n).
Proof.
  induction n as [|n IH]; [exact Hinit|].
  rewrite !state_at_succ.
  destruct (state_at_slot be1 Msg1 MsgLen HashLen Hash1 SeedXOR1 InitVec1 n HV)
    as (H0 & H4 & Hh).
  apply body_same_state; try assumption.
  - rewrite state_at_k; lia.
  - now rewrite state_at_length.
  - now rewrite state_at_length.
Qed.

End TwoRuns.

(** ** The finalized buffer *)

Section Finalized.

Variable HashLen : Z.

Hypothesis HV : valid_HashLen HashLen.

Lemma length_finalized (be : bool) (h : list byte) :
  length (finalized be HashLen h) = length h.
Proof.
  unfold finalized; rewrite length_prvhash42_ec.
  destruct (4 <? HashLen); [apply length_fold_n | reflexivity].
Qed.

Lemma finalized_scratch (be : bool) (h : list byte) (i : Z) :
  HashLen <= i -> byte_at (finalized be HashLen h) i = byte_at h i.
Proof.
  intros Hi; destruct HV as [HV4 HVm]; unfold finalized.
  pose proof (Z.div_mod HashLen 4 ltac:(lia)).
  rewrite byte_at_prvhash42_ec_other by lia.
  destruct (4 <? HashLen); [|reflexivity].
  apply byte_at_fold_n_other; lia.
Qed.

Lemma finalized_words (be : bool) (h : list byte) (j : Z) :
  hlm HashLen <= Z.of_nat (length h) ->
  0 <= j -> j mod 4 = 0 -> j + 4 <= HashLen ->
  prvhash42_u32ec (finalized be HashLen h) j =
  if 4 <? HashLen
  then Z.lxor (load32 be h j) (load32 be h (HashLen + j))
  else load32 be h j.
Proof.
  intros Hlen Hj Hj4 HjH.
  pose proof (hlm_facts HashLen HV) as (Hh4 & Hhm & Hhl).
  destruct HV as [HV4 HVm].
  pose proof (Z.div_mod HashLen 4 ltac:(lia)) as Hd.
  pose proof (Z.div_mod j 4 ltac:(lia)) as Hdj.
  unfold finalized.
  rewrite u32ec_prvhash42_ec;
    [| destruct (4 <? HashLen); rewrite ?length_fold_n; lia | lia.. ].
  destruct (4 <? HashLen); [|reflexivity].
  replace j with (0 + 4 * (j / 4)) at 1 by lia.
  rewrite load32_fold_n by lia.
  replace (0 + 4 * (j / 4)) with j by lia; reflexivity.
Qed.

Lemma finalized_agree (be1 be2 : bool) (h1 h2 : list byte) :
  hlm HashLen <= Z.of_nat (length h1) ->
  hlm HashLen <= Z.of_nat (length h2) ->
  same_words be1 be2 0 (hlm HashLen) h1 h2 ->
  digest HashLen (finalized be1 HashLen h1) =
  digest HashLen (finalized be2 HashLen h2) /\
  same_words be1 be2 HashLen (hlm HashLen)
    (finalized be1 HashLen h1) (finalized be2 HashLen h2).
Proof.
  intros Hl1 Hl2 Hw.
  pose proof (hlm_facts HashLen HV) as (Hh4 & Hhm & Hhl).
  pose proof HV as [HV4 HVm].
  split.
  - apply digest_ext; rewrite ?length_finalized; try lia.
    intros i Hi.
    pose proof (Z.div_mod i 4 ltac:(lia)) as Hdi.
    pose proof (Z.mod_pos_bound i 4 ltac:(lia)) as Hmi.
    pose proof (Z.div_mod HashLen 4 ltac:(lia)) as Hd.
    assert (Hj4 : (4 * (i / 4)) mod 4 = 0)
      by (rewrite Z.mul_comm; apply Z.mod_mul; lia).
    apply (u32ec_bytes _ _ (4 * (i / 4))); [|lia].
    rewrite !finalized_words by lia.
    rewrite (Hw (4 * (i / 4))) by lia.
    destruct (Z.ltb_spec 4 HashLen); [|reflexivity].
    rewrite (Hw (HashLen + 4 * (i / 4))); [reflexivity | lia | | ].
    + rewrite Z.add_mod, HVm, Hj4 by lia; reflexivity.
    + rewrite hlm_eq in *.
      destruct (Z.eqb_spec HashLen 4); lia.
  - intros j Hj Hj4 Hjh.
    rewrite (load32_ext be1 _ h1), (load32_ext be2 _ h2);
      [apply Hw; lia | |]; intros i Hi; apply finalized_scratch; lia.
Qed.

End Finalized.

Lemma prvhash42_finalized (be : bool) (Msg : list byte) (MsgLen HashLen : Z)
    (fuel : nat) (Hash0 : list byte) (SeedXOR : Z)
    (InitVec : option (list byte)) :
  0 <= MsgLen -> valid_HashLen HashLen ->
  (Z.to_nat (c MsgLen HashLen / 4) < fuel)%nat ->
  prvhash42 be Msg MsgLen HashLen fuel Hash0 SeedXOR InitVec =
  Some (finalized be HashLen
          (Hash (state_at be Msg MsgLen HashLen Hash0 SeedXOR InitVec
                   (Z.to_nat (c MsgLen HashLen / 4))))).
Proof. intros HM HV Hf; now apply prvhash42_returns. Qed.

(** Two calls whose entry states agree and whose messages give the same
    words return buffers with the same digest and, read in the respective
    host order, the same scratch words. *)
Lemma outputs_agree (be1 be2 : bool) (Msg1 Msg2 : list byte)
    (MsgLen HashLen : Z) (fuel : nat) (Hash1 Hash2 : list byte)
    (SeedXOR1 SeedXOR2 : Z) (InitVec1 InitVec2 : option (list byte)) :
  0 <= MsgLen -> valid_HashLen HashLen ->
  (Z.to_nat (c MsgLen HashLen / 4) < fuel)%nat ->
  (forall i : Z, 0 <= i -> msgw Msg1 MsgLen i = msgw Msg2 MsgLen i) ->
  hlm HashLen <= Z.of_nat (length Hash1) ->
  hlm HashLen <= Z.of_nat (length Hash2) ->
  same_state be1 be2 (hlm HashLen)
    (init be1 HashLen Hash1 SeedXOR1 InitVec1)
    (init be2 HashLen Hash2 SeedXOR2 InitVec2) ->
  exists out1 out2 : list byte,
    prvhash42 be1 Msg1 MsgLen HashLen fuel Hash1 SeedXOR1 InitVec1 = Some out1 /\
    prvhash42 be2 Msg2 MsgLen HashLen fuel Hash2 SeedXOR2 InitVec2 = Some out2 /\
    length out1 = length Hash1 /\ length out2 = length Hash2 /\
    digest HashLen out1 = digest HashLen out2 /\
    Z.of_nat (length (digest HashLen out1)) = HashLen /\
    same_words be1 be2 HashLen (hlm HashLen) out1 out2.
Proof.
  intros HM HV Hf Hmsg Hl1 Hl2 Hinit.
  pose proof (hlm_facts HashLen HV) as (Hh4 & Hhm & Hhl).
  pose proof (run_same_state be1 be2 Msg1 Msg2 MsgLen HashLen HV Hmsg
                Hash1 Hash2 SeedXOR1 SeedXOR2 InitVec1 InitVec2 Hl1 Hl2 Hinit
                (Z.to_nat (c MsgLen HashLen / 4))) as (_ & _ & _ & _ & Hw).
  do 2 eexists.
  split; [apply prvhash42_finalized; assumption|].
  split; [apply prvhash42_finalized; assumption|].
  destruct (finalized_agree HashLen HV be1 be2 _ _
              ltac:(rewrite state_at_length; exact Hl1)
              ltac:(rewrite state_at_length; exact Hl2) Hw) as [Hd Hs].
  split; [now rewrite length_finalized, state_at_length|].
  split; [now rewrite length_finalized, state_at_length|].
  split; [exact Hd|]. split; [|exact Hs].
  apply length_digest; rewrite length_finalized, state_at_length; lia.
Qed.

(** ** Entry states that agree *)

Lemma load32_zero (be : bool) (p : list byte) (j : Z) :
  (forall i : Z, j <= i < j + 4 -> byte_at p i = 0) -> load32 be p j = 0.
Proof.
  intros H; unfold load32.
  rewrite (H j), (H (j + 1)), (H (j + 2)), (H (j + 3)) by lia.
  destruct be; reflexivity.
Qed.

Lemma init_None_same_state (be1 be2 : bool) (HashLen : Z)
    (Hash1 Hash2 : list byte) (SeedXOR : Z) :
  hlm HashLen <= Z.of_nat (length Hash1) ->
  hlm HashLen <= Z.of_nat (length Hash2) ->
  same_state be1 be2 (hlm HashLen)
    (init be1 HashLen Hash1 SeedXOR None) (init be2 HashLen Hash2 SeedXOR None).
Proof.
  intros Hl1 Hl2; unfold same_state, init; cbn [k Seed lcg hpos Hash].
  repeat split.
  intros j Hj Hj4 Hjh.
  rewrite !load32_zero; [reflexivity | |]; intros i Hi;
    now rewrite byte_at_memset_in by lia.
Qed.

Lemma init_Some_same_state (be1 be2 : bool) (HashLen : Z)
    (Hash1 Hash2 : list byte) (SeedXOR1 SeedXOR2 : Z) (iv1 iv2 : list byte) :
  hlm HashLen <= Z.of_nat (length Hash1) ->
  hlm HashLen <= Z.of_nat (length Hash2) ->
  (forall i : Z, 0 <= i < hlm HashLen -> byte_at Hash1 i = byte_at Hash2 i) ->
  (forall i : Z, 0 <= i < 16 -> byte_at iv1 i = byte_at iv2 i) ->
  same_state be1 be2 (hlm HashLen)
    (init be1 HashLen Hash1 SeedXOR1 (Some iv1))
    (init be2 HashLen Hash2 SeedXOR2 (Some iv2)).
Proof.
  intros Hl1 Hl2 Hh Hiv; unfold same_state, init; cbn [k Seed lcg hpos Hash].
  split; [reflexivity|].
  split; [rewrite !u64ec_sum, !Hiv by lia; reflexivity|].
  split; [rewrite !u64ec_sum, !Hiv by lia; reflexivity|].
  split; [reflexivity|].
  intros j Hj Hj4 Hjh.
  rewrite !load32_prvhash42_ec by lia.
  apply u32ec_ext; intros i Hi; apply Hh; lia.
Qed.

(** ** Independence of the host *)





(** ** What the function reads and writes *)

Lemma state_at_tail (be : bool) (Msg : list byte) (MsgLen HashLen : Z)
    (Hash0 : list byte) (SeedXOR : Z) (InitVec : option (list byte))
    (n : nat) (i : Z) :
  valid_HashLen HashLen -> hlm HashLen <= i ->
  byte_at (Hash (state_at be Msg MsgLen HashLen Hash0 SeedXOR InitVec n)) i =
  byte_at Hash0 i.
Proof.
  intros HV Hi.
  pose proof (hlm_facts HashLen HV) as (Hh4 & _ & _).
  induction n as [|n IH].
  - rewrite state_at_0; unfold init; destruct InitVec; cbn [Hash].
    + apply byte_at_prvhash42_ec_other; lia.
    + apply byte_at_memset_other; lia.
  - destruct (state_at_slot be Msg MsgLen HashLen Hash0 SeedXOR InitVec n HV)
      as (H0 & _ & Hh).
    rewrite state_at_succ; unfold body; cbn [Hash].
    rewrite byte_at_store32_other by lia; exact IH.
Qed.



Lemma msgw_agree (Msg Msg' : list byte) (MsgLen i : Z) :
  (forall j : Z, 0 <= j < MsgLen -> byte_at Msg j = byte_at Msg' j) ->
  0 <= i -> msgw Msg MsgLen i = msgw Msg' MsgLen i.
Proof.
  intros H Hi; unfold msgw.
  assert (Hlb : lb Msg MsgLen = lb Msg' MsgLen).
  { unfold lb; destruct (Z.ltb_spec 0 MsgLen); [|reflexivity].
    now rewrite H by lia. }
  rewrite Hlb.
  destruct (Z.ltb_spec i (MsgLen - 3)).
  - apply u32ec_ext; intros j Hj; apply H; lia.
  - destruct (Z.ltb_spec i MsgLen), (Z.ltb_spec i (MsgLen - 1)),
      (Z.ltb_spec i (MsgLen - 2)); rewrite ?H by lia; reflexivity.
Qed.

Lemma loop_agree (be : bool) (Msg Msg' : list byte) (MsgLen HashLen : Z)
    (fuel : nat) (st : loop_state) :
  (forall j : Z, 0 <= j < MsgLen -> byte_at Msg j = byte_at Msg' j) ->
  0 <= k st ->
  loop be Msg MsgLen HashLen fuel st = loop be Msg' MsgLen HashLen fuel st.
Proof.
  intros H; revert st; induction fuel as [|fuel IH]; intros st Hk;
    [reflexivity|].
  cbn [loop]. destruct (k st <? c MsgLen HashLen); [|reflexivity].
  assert (Hb : body be Msg MsgLen HashLen st = body be Msg' MsgLen HashLen st)
    by (unfold body; now rewrite (msgw_agree Msg Msg') by assumption).
  rewrite Hb; apply IH; unfold body; cbn [k]; lia.
Qed.

(** X4: the message is read within its first [MsgLen] bytes only: two
    calls whose messages agree on the indices below [MsgLen] return the
    same thing, whatever lies in memory after the message (and whatever
    the other arguments are). *)
Theorem message_read_below_MsgLen (be : bool) (Msg Msg' : list byte)
    (MsgLen HashLen : Z) (fuel : nat) (Hash0 : list byte) (SeedXOR : Z)
    (InitVec : option (list byte)) :
  (forall j : Z, 0 <= j < MsgLen -> byte_at Msg j = byte_at Msg' j) ->
  prvhash42 be Msg MsgLen HashLen fuel Hash0 SeedXOR InitVec =
  prvhash42 be Msg' MsgLen HashLen fuel Hash0 SeedXOR InitVec.
Proof.
  intros H; unfold prvhash42.
  rewrite (loop_agree be Msg Msg'); [reflexivity | assumption |].
  destruct (init_k_hpos be HashLen Hash0 SeedXOR InitVec) as [-> _]; lia.
Qed.

Lemma message_read_below_MsgLen_witness :
  (forall j : Z, 0 <= j < 3 -> byte_at msg_abc j = byte_at (msg_abc ++ msg12) j) /\
  prvhash42 false msg_abc 3 8 7 (zero_buffer 16) 0 None =
  prvhash42 false (msg_abc ++ msg12) 3 8 7 (zero_buffer 16) 0 None.
Proof.
  assert (H : forall j : Z, 0 <= j < 3 ->
                byte_at msg_abc j = byte_at (msg_abc ++ msg12) j).
  { intros j Hj.
    assert (j = 0 \/ j = 1 \/ j = 2) as [-> | [-> | ->]] by lia;
      reflexivity. }
  split; [exact H|].
  exact (message_read_below_MsgLen false msg_abc (msg_abc ++ msg12) 3 8 7
           (zero_buffer 16) 0 None H).
Defined.

Lemma load32_bytes (be : bool) (p q : list byte) (j i : Z) :
  load32 be p j = load32 be q j -> j <= i < j + 4 ->
  byte_at p i = byte_at q i.
Proof.
  unfold load32; intros H Hi.
  destruct be; apply word_of_bytes_inj in H; try apply byte_at_range;
    destruct H as (H0 & H1 & H2 & H3);
    (assert (i = j \/ i = j + 1 \/ i = j + 2 \/ i = j + 3)
       as [-> | [-> | [-> | ->]]] by lia); assumption.
Qed.

Lemma byte_at_digest (HashLen : Z) (p : list byte) (i : Z) :
  0 <= i < HashLen -> byte_at (digest HashLen p) i = byte_at p i.
Proof.
  intros Hi; unfold byte_at, digest; rewrite nth_firstn.
  destruct (Nat.ltb_spec (Z.to_nat i) (Z.to_nat HashLen)); [reflexivity | lia].
Qed.

Lemma same_host_prefix (be : bool) (HashLen : Z) (o1 o2 : list byte) :
  valid_HashLen HashLen ->
  hlm HashLen <= Z.of_nat (length o1) -> hlm HashLen <= Z.of_nat (length o2) ->
  digest HashLen o1 = digest HashLen o2 ->
  same_words be be HashLen (hlm HashLen) o1 o2 ->
  firstn (Z.to_nat (hlm HashLen)) o1 = firstn (Z.to_nat (hlm HashLen)) o2.
Proof.
  intros HV Hl1 Hl2 Hd Hw.
  pose proof (hlm_facts HashLen HV) as (Hh4 & Hhm & Hhl).
  destruct HV as [HV4 HVm].
  apply (digest_ext (hlm HashLen)); try assumption.
  intros i Hi.
  destruct (Z.lt_ge_cases i HashLen) as [Hlt|Hge].
  - rewrite <- (byte_at_digest HashLen o1), <- (byte_at_digest HashLen o2)
      by lia.
    now rewrite Hd.
  - pose proof (Z.div_mod i 4 ltac:(lia)) as Hdi.
    pose proof (Z.mod_pos_bound i 4 ltac:(lia)) as Hmi.
    pose proof (Z.div_mod HashLen 4 ltac:(lia)) as Hdh.
    pose proof (Z.div_mod (hlm HashLen) 4 ltac:(lia)) as Hdm.
    apply (load32_bytes be _ _ (4 * (i / 4))); [|lia].
    apply Hw; [lia | | lia].
    rewrite Z.mul_comm; apply Z.mod_mul; lia.
Qed.





(** ** The cost of a call and the padding *)

(** X7: the iteration length is linear in the message and hash lengths:
    for [MsgLen >= 0] and valid [HashLen] for which lines 101 and 102 do
    not overflow [int],
    [MsgLen + HashLen + 4 <= c <= MsgLen + 3 * HashLen + 3]; for
    [HashLen = 4] it is exactly [mlext + 8], two passes after the
    message. *)
Theorem iteration_length_bounds (MsgLen HashLen : Z) :
  0 <= MsgLen -> valid_HashLen HashLen -> no_int_overflow MsgLen HashLen ->
  MsgLen + HashLen + 4 <= c MsgLen HashLen /\
  c MsgLen HashLen <= mlext MsgLen + HashLen + hlm HashLen /\
  c MsgLen HashLen <= MsgLen + 3 * HashLen + 3 /\
  (HashLen = 4 -> c MsgLen HashLen = mlext MsgLen + 8).
Proof.
  intros HM HV Hno.
  destruct (c_facts MsgLen HashLen HM HV Hno) as (Hc & _ & _).
  pose proof (hlm_facts HashLen HV) as (Hh4 & Hhm & Hhl).
  pose proof (mlext_facts MsgLen HashLen HM HV Hno) as (Hmm & Hml).
  pose proof (Z.mod_pos_bound (mlext MsgLen) (hlm HashLen) ltac:(lia)) as Hr.
  rewrite c_eq in * by assumption.
  repeat split; try lia.
  intros ->. change (hlm 4) with 4. rewrite Hmm; lia.
Qed.

Lemma iteration_length_bounds_witness :
  0 <= 12 /\ valid_HashLen 8 /\ no_int_overflow 12 8 /\
  12 + 8 + 4 <= c 12 8 /\
  c 12 8 <= mlext 12 + 8 + hlm 8 /\
  c 12 8 <= 12 + 3 * 8 + 3 /\
  (8 = 4 -> c 12 8 = mlext 12 + 8).
Proof.
  assert (HM : 0 <= 12) by lia.
  assert (HV : valid_HashLen 8) by (split; [lia | reflexivity]).
  assert (Hno : no_int_overflow 12 8) by (vm_compute; discriminate).
  split; [exact HM|]. split; [exact HV|]. split; [exact Hno|].
  exact (iteration_length_bounds 12 8 HM HV Hno).
Defined.

(** X8: from the end of the message on, every pass mixes the same word,
    four copies of the filler byte: [msgw = 0x01010101 * lb] for every
    index [i >= MsgLen]; for the empty message it is [0xFFFFFFFF] in every
    pass. *)
Theorem filler_word_after_message (Msg : list byte) (MsgLen i : Z) :
  MsgLen <= i ->
  msgw Msg MsgLen i = 16843009 * lb Msg MsgLen /\
  (MsgLen <= 0 -> msgw Msg MsgLen i = 4294967295).
Proof.
  intros Hi.
  assert (Hw : msgw Msg MsgLen i = 16843009 * lb Msg MsgLen).
  { rewrite msgw_sum.
    destruct (Z.leb_spec i (MsgLen - 4)); [lia|].
    destruct (Z.ltb_spec (i + 0) MsgLen), (Z.ltb_spec (i + 1) MsgLen),
      (Z.ltb_spec (i + 2) MsgLen); lia. }
  split; [exact Hw|].
  intros H0; rewrite Hw, lb_eq.
  destruct (Z.ltb_spec 0 MsgLen); [lia | reflexivity].
Qed.

Lemma filler_word_after_message_witness :
  3 <= 4 /\
  msgw msg_abc 3 4 = 16843009 * lb msg_abc 3 /\
  (3 <= 0 -> msgw msg_abc 3 4 = 4294967295).
Proof.
  assert (H : 3 <= 4) by lia.
  split; [exact H|].
  exact (filler_word_after_message msg_abc 3 4 H).
Defined.

(** ** The padding determines the message *)

Lemma padded_byte_range (Msg : list byte) (MsgLen i : Z) :
  0 <= padded_byte Msg MsgLen i < 2 ^ 8.
Proof.
  unfold padded_byte; destruct (i <? MsgLen);
    [apply byte_at_range | apply lb_range].
Qed.

(** Every message word is four consecutive bytes of the padded message,
    least significant first. *)
Lemma msgw_padded (Msg : list byte) (MsgLen i : Z) :
  msgw Msg MsgLen i =
  padded_byte Msg MsgLen i + 2 ^ 8 * padded_byte Msg MsgLen (i + 1) +
  2 ^ 16 * padded_byte Msg MsgLen (i + 2) +
  2 ^ 24 * padded_byte Msg MsgLen (i + 3).
Proof.
  rewrite msgw_sum; unfold padded_byte.
  rewrite Z.add_0_r.
  destruct (Z.leb_spec i (MsgLen - 4)).
  - destruct (Z.ltb_spec i MsgLen), (Z.ltb_spec (i + 1) MsgLen),
      (Z.ltb_spec (i + 2) MsgLen), (Z.ltb_spec (i + 3) MsgLen); try lia;
      reflexivity.
  - destruct (Z.ltb_spec (i + 3) MsgLen); [lia | reflexivity].
Qed.

Lemma padded_bytes_of_words (Msg1 Msg2 : list byte) (L1 L2 n : Z) :
  n mod 4 = 0 ->
  (forall i : Z, 0 <= i < n -> i mod 4 = 0 ->
     msgw Msg1 L1 i = msgw Msg2 L2 i) ->
  forall i : Z, 0 <= i < n -> padded_byte Msg1 L1 i = padded_byte Msg2 L2 i.
Proof.
  intros Hn H i Hi.
  pose proof (Z.div_mod i 4 ltac:(lia)) as Hdi.
  pose proof (Z.mod_pos_bound i 4 ltac:(lia)) as Hmi.
  pose proof (Z.div_mod n 4 ltac:(lia)) as Hdn.
  assert (Hk4 : (4 * (i / 4)) mod 4 = 0)
    by (rewrite Z.mul_comm; apply Z.mod_mul; lia).
  specialize (H (4 * (i / 4)) ltac:(lia) Hk4).
  rewrite !msgw_padded in H.
  set (j := 4 * (i / 4)) in *.
  pose proof (padded_byte_range Msg1 L1 j).
  pose proof (padded_byte_range Msg1 L1 (j + 1)).
  pose proof (padded_byte_range Msg1 L1 (j + 2)).
  pose proof (padded_byte_range Msg1 L1 (j + 3)).
  pose proof (padded_byte_range Msg2 L2 j).
  pose proof (padded_byte_range Msg2 L2 (j + 1)).
  pose proof (padded_byte_range Msg2 L2 (j + 2)).
  pose proof (padded_byte_range Msg2 L2 (j + 3)).
  assert (i = j \/ i = j + 1 \/ i = j + 2 \/ i = j + 3)
    as [E | [E | [E | E]]] by lia; rewrite E; lia.
Qed.

Lemma shorter_message_differs (Msg1 Msg2 : list byte) (L1 L2 n : Z) :
  0 <= L1 < L2 -> L2 < n ->
  (forall i : Z, 0 <= i < n -> padded_byte Msg1 L1 i = padded_byte Msg2 L2 i) ->
  False.
Proof.
  intros HL Hn H.
  pose proof (H L2 ltac:(lia)) as Ha.
  pose proof (H (L2 - 1) ltac:(lia)) as Hb.
  unfold padded_byte in Ha, Hb.
  destruct (Z.ltb_spec L2 L1), (Z.ltb_spec L2 L2),
    (Z.ltb_spec (L2 - 1) L1), (Z.ltb_spec (L2 - 1) L2); try lia.
  rewrite (lb_eq Msg2) in Ha.
  destruct (Z.ltb_spec 0 L2); lia.
Qed.

(** X9: the padding is unambiguous.  If two messages, for which lines 101
    and 102 do not overflow [int], make the loop run the same number of
    passes for some valid [HashLen] and present the same message word in
    every pass, then they have the same length and the same bytes. *)
Theorem padding_determines_message (Msg1 Msg2 : list byte)
    (MsgLen1 MsgLen2 HashLen : Z) :
  0 <= MsgLen1 -> 0 <= MsgLen2 -> valid_HashLen HashLen ->
  no_int_overflow MsgLen1 HashLen -> no_int_overflow MsgLen2 HashLen ->
  c MsgLen1 HashLen = c MsgLen2 HashLen ->
  (forall i : Z, 0 <= i < c MsgLen1 HashLen -> i mod 4 = 0 ->
     msgw Msg1 MsgLen1 i = msgw Msg2 MsgLen2 i) ->
  MsgLen1 = MsgLen2 /\
  forall i : Z, 0 <= i < MsgLen1 -> byte_at Msg1 i = byte_at Msg2 i.
Proof.
  intros H1 H2 HV Hno1 Hno2 Hc Hw.
  destruct (c_facts MsgLen1 HashLen H1 HV Hno1) as (Hc1 & Hc4 & _).
  destruct (c_facts MsgLen2 HashLen H2 HV Hno2) as (Hc2 & _ & _).
  pose proof (mlext_facts MsgLen1 HashLen H1 HV Hno1) as (_ & Hm1).
  pose proof (mlext_facts MsgLen2 HashLen H2 HV Hno2) as (_ & Hm2).
  destruct HV as [HV4 _].
  pose proof (padded_bytes_of_words Msg1 Msg2 MsgLen1 MsgLen2
                (c MsgLen1 HashLen) Hc4 Hw) as Hb.
  assert (HL : MsgLen1 = MsgLen2).
  { destruct (Z.lt_trichotomy MsgLen1 MsgLen2) as [Hlt | [Heq | Hgt]];
      [exfalso | exact Heq | exfalso].
    - apply (shorter_message_differs Msg1 Msg2 MsgLen1 MsgLen2
               (c MsgLen1 HashLen)); [lia | lia | exact Hb].
    - apply (shorter_message_differs Msg2 Msg1 MsgLen2 MsgLen1
               (c MsgLen1 HashLen)); [lia | lia |].
      intros i Hi; symmetry; now apply Hb. }
  split; [exact HL|].
  intros i Hi.
  specialize (Hb i ltac:(lia)); unfold padded_byte in Hb.
  rewrite <- HL in Hb.
  destruct (Z.ltb_spec i MsgLen1); [exact Hb | lia].
Qed.

Lemma padding_determines_message_witness :
  0 <= 3 /\ 0 <= 3 /\ valid_HashLen 4 /\ no_int_overflow 3 4 /\
  c 3 4 = c 3 4 /\
  (forall i : Z, 0 <= i < c 3 4 -> i mod 4 = 0 ->
     msgw msg_abc 3 i = msgw (msg_abc ++ msg12) 3 i) /\
  3 = 3 /\
  forall i : Z, 0 <= i < 3 -> byte_at msg_abc i = byte_at (msg_abc ++ msg12) i.
Proof.
  assert (HM : 0 <= 3) by lia.
  assert (HV : valid_HashLen 4) by (split; [lia | reflexivity]).
  assert (Hw : forall i : Z, 0 <= i < c 3 4 -> i mod 4 = 0 ->
                 msgw msg_abc 3 i = msgw (msg_abc ++ msg12) 3 i).
  { intros i Hi Hi4; change (c 3 4) with 12 in Hi.
    pose proof (Z.div_mod i 4 ltac:(lia)).
    assert (i = 0 \/ i = 4 \/ i = 8) as [-> | [-> | ->]] by lia;
      reflexivity. }
  assert (Hno : no_int_overflow 3 4) by (vm_compute; discriminate).
  split; [exact HM|]. split; [exact HM|]. split; [exact HV|].
  split; [exact Hno|]. split; [reflexivity|]. split; [exact Hw|].
  exact (padding_determines_message msg_abc (msg_abc ++ msg12) 3 3 4
           HM HM HV Hno Hno eq_refl Hw).
Defined.

(** ** A chain of two calls *)

(** The buffer returned by a first call with [HashLen = 8] is passed, with
    an [InitVec], to a second call: the digests of the second call differ
    between a little-endian and a big-endian host, the scratch half having
    been returned in host order and corrected again on entry. *)
Example chained_calls_differ_across_hosts :
  let iv := msg12 ++ msg_abc ++ [Byte.x2a] in
  let chain be :=
    match prvhash42 be msg_abc 3 8 7 (zero_buffer 16) 0 None with
    | Some h => option_map (digest 8) (prvhash42 be msg12 12 8 7 h 0 (Some iv))
    | None => None
    end in
  chain false <> None /\ chain true <> None /\ chain false <> chain true.
Proof. vm_compute; repeat split; discriminate. Qed.

(** ** Every slot is written *)

(** X10: for [MsgLen >= 0] and valid [HashLen] for which lines 101 and 102
    do not overflow [int], and a hash buffer of at least [hlm] bytes,
    every 4-byte slot [s] of the [hlm] bytes of the buffer, scratch half
    included, is written by a pass of the run: the pass at [k = s] is
    made, it stores its word [ph] at [s], and [ph] is what the buffer
    holds there after it (the first [hlm / 4] passes go through all the
    slots). *)
Theorem every_slot_written (be : bool) (Msg : list byte) (MsgLen HashLen : Z)
    (Hash0 : list byte) (SeedXOR : Z) (InitVec : option (list byte)) (s : Z) :
  0 <= MsgLen -> valid_HashLen HashLen -> no_int_overflow MsgLen HashLen ->
  hlm HashLen <= Z.of_nat (length Hash0) ->
  0 <= s < hlm HashLen -> s mod 4 = 0 ->
  exists n : nat,
    k (state_at be Msg MsgLen HashLen Hash0 SeedXOR InitVec n) = s /\
    pass_writes_slot be Msg MsgLen HashLen Hash0 SeedXOR InitVec n s.
Proof.
  intros HM HV Hno Hlen Hs Hs4.
  destruct (c_facts MsgLen HashLen HM HV Hno) as (Hc & _ & Hch).
  pose proof (hlm_facts HashLen HV) as (Hh4 & _ & Hhl).
  pose proof (mlext_facts MsgLen HashLen HM HV Hno) as (_ & Hml).
  pose proof (Z.div_mod s 4 ltac:(lia)) as Hds.
  assert (Hge : hlm HashLen <= c MsgLen HashLen - HashLen).
  { set (d := c MsgLen HashLen - HashLen) in *.
    pose proof (Z.div_mod d (hlm HashLen) ltac:(lia)) as Hd.
    pose proof HV as [HV4 _].
    assert (0 < d) by (unfold d; lia).
    assert (0 < d / hlm HashLen) by nia.
    nia. }
  pose proof HV as [HV4 _].
  exists (Z.to_nat (s / 4)).
  rewrite state_at_k, Z2Nat.id by lia.
  split; [lia|].
  apply pass_writes_slot_at; try assumption; rewrite Z2Nat.id by lia;
    replace (4 * (s / 4)) with s by lia; [lia|].
  apply Z.mod_small; lia.
Qed.

Lemma every_slot_written_witness :
  0 <= 12 /\ valid_HashLen 8 /\ no_int_overflow 12 8 /\
  hlm 8 <= Z.of_nat (length (zero_buffer 16)) /\
  0 <= 8 < hlm 8 /\ 8 mod 4 = 0 /\
  exists n : nat,
    k (state_at false msg12 12 8 (zero_buffer 16) 0 None n) = 8 /\
    pass_writes_slot false msg12 12 8 (zero_buffer 16) 0 None n 8.
Proof.
  assert (HM : 0 <= 12) by lia.
  assert (HV : valid_HashLen 8) by (split; [lia | reflexivity]).
  assert (Hno : no_int_overflow 12 8) by (vm_compute; discriminate).
  assert (Hl : hlm 8 <= Z.of_nat (length (zero_buffer 16)))
    by (vm_compute; discriminate).
  assert (Hs : 0 <= 8 < hlm 8) by (vm_compute; split; congruence).
  assert (Hs4 : 8 mod 4 = 0) by reflexivity.
  split; [exact HM|]. split; [exact HV|]. split; [exact Hno|].
  split; [exact Hl|]. split; [exact Hs|]. split; [exact Hs4|].
  exact (every_slot_written false msg12 12 8 (zero_buffer 16) 0 None 8
           HM HV Hno Hl Hs Hs4).
Defined.
